(** * Storage analysis of the wallet database: a model of
      [prisma/analyze_db_storage_v2.py]

    The script measures how much room each table of the SQLite database
    takes.  It first asks the engine's [dbstat] virtual table
    ([analyze_with_dbstat]); when that yields nothing it estimates every
    table from the static [TABLE_CONFIG] ([estimate_table_sizes_fallback]).

    The embedding follows the script function by function.

    - The database connection is what the script can observe of it: the
      catalog and the [dbstat] rows, from which the two catalog queries of
      the script are evaluated, and the answers to the per-table queries
      ([COUNT], [PRAGMA table_info], [SUM(LENGTH ...)]), each of which is
      either rows or a raised [sqlite3.Error].
    - Effects are a log of what the script does to the outside world: the
      SQL texts it executes and the lines it prints on stderr, together
      with either a value or the exception that escaped.
    - The report printed on stdout is presentation only and is not part of
      the model; the two-decimal rendering of a float in [format_bytes] is
      a parameter of the development.

    [src/helpers/db/analyze_db_storage_v2.py] is an earlier revision of the
    same script that knows the JSON, string and fixed groups only; every
    statement below is about the [prisma] revision. *)

From Stdlib Require Import ZArith String Ascii List Lia.
From Stdlib Require Import DecimalString.
From stdpp Require Import base option list sorting strings gmap.

Open Scope string_scope.
Open Scope Z_scope.

(** ** Text helpers *)

(** The double-quote character that the SQL texts put around identifiers. *)
Definition dq : string := String "034"%char EmptyString.

(** Python's [needle in hay] on [str]. *)
Fixpoint contains (needle hay : string) : bool :=
  String.prefix needle hay
  || match hay with
     | EmptyString => false
     | String _ rest => contains needle rest
     end.

(** [", ".join(parts)] and friends. *)
Fixpoint join (sep : string) (parts : list string) : string :=
  match parts with
  | [] => EmptyString
  | [p] => p
  | p :: rest => p ++ sep ++ join sep rest
  end.

(** Decimal digits of a natural number, as [str(n)] prints them. *)
Definition digits (n : N) : string :=
  NilZero.string_of_uint (N.to_uint n).

(** [f"{n}"] for an [int]. *)
Definition str_of_int (n : Z) : string :=
  if n <? 0 then "-" ++ digits (Z.abs_N n) else digits (Z.abs_N n).

(** Thousands separators over the digits read from the least significant
    end. *)
Fixpoint group_thousands (rev_digits : list ascii) : list ascii :=
  match rev_digits with
  | a :: b :: c :: ((_ :: _) as more) =>
      a :: b :: c :: ","%char :: group_thousands more
  | _ => rev_digits
  end.

(** [f"{n:,}"] for an [int]. *)
Definition format_commas (n : Z) : string :=
  let body :=
    string_of_list_ascii
      (rev (group_thousands (rev (list_ascii_of_string (digits (Z.abs_N n)))))) in
  if n <? 0 then "-" ++ body else body.

(** ASCII lower-casing, the case folding that SQLite's [LIKE] applies. *)
Definition ascii_lower (c : ascii) : ascii :=
  let n := N_of_ascii c in
  if ((65 <=? n) && (n <=? 90))%N then ascii_of_N (n + 32) else c.

Fixpoint string_lower (s : string) : string :=
  match s with
  | EmptyString => EmptyString
  | String c rest => String (ascii_lower c) (string_lower rest)
  end.

(** ** Exceptions

    Everything the [sqlite3] module raises from a connection or a cursor
    derives from [sqlite3.Error]; [analyze_with_dbstat] singles out
    [sqlite3.OperationalError].  Nothing else in the modelled code raises,
    so a handler for [Exception] has only these to catch. *)
Inductive exn : Type :=
| OperationalError (msg : string)
| OtherSqliteError (msg : string).

(** [str(e)]. *)
Definition str (e : exn) : string :=
  match e with
  | OperationalError msg => msg
  | OtherSqliteError msg => msg
  end.

(** ** The connection *)

(** A row of [sqlite_master]: its [type] and [name] columns. *)
Record master_row : Type := MasterRow {
  m_type : string;
  m_name : string
}.

(** A row of [dbstat]: its [name] and [pgsize] columns. *)
Record dbstat_row : Type := DbstatRow {
  s_name : string;
  s_pgsize : Z
}.

Record Connection : Type := {
  (** rows of the catalog, or the error reading it raises *)
  sqlite_master : exn + list master_row;
  (** rows of the [dbstat] virtual table, or the error using it raises
      (a build without it raises "no such table: dbstat") *)
  dbstat : exn + list dbstat_row;
  (** [SELECT COUNT( * ) FROM "t";] *)
  count_rows : string -> exn + Z;
  (** [PRAGMA table_info('t');]: the [name] column ([info[1]]) of each row *)
  table_info : string -> exn + list string;
  (** [SELECT SUM(LENGTH("f")) FROM "t";], [None] for SQL [NULL] *)
  sum_length : string -> string -> exn + option Z;
  (** [SELECT SUM(LENGTH(CAST("f" AS TEXT))) FROM "t";] *)
  sum_length_text : string -> string -> exn + option Z;
  (** [SELECT SUM(LENGTH("f1") + ... + LENGTH("fk")) FROM "t";] *)
  sum_lengths : string -> list string -> exn + option Z
}.

(** ** The SQL texts the script sends *)

Definition nl : string := String "010"%char EmptyString.

Definition DBSTAT_QUERY : string :=
  nl ++
  "        SELECT" ++ nl ++
  "            m.name AS table_name," ++ nl ++
  "            SUM(s.pgsize) AS total_bytes" ++ nl ++
  "        FROM sqlite_master m" ++ nl ++
  "        JOIN dbstat s ON s.name = m.name" ++ nl ++
  "        WHERE m.type = 'table' AND m.name NOT LIKE 'sqlite_%'" ++ nl ++
  "        GROUP BY m.name" ++ nl ++
  "        ORDER BY total_bytes DESC;" ++ nl ++
  "        ".

Definition TABLES_QUERY : string :=
  "SELECT name FROM sqlite_master WHERE type='table' AND name NOT LIKE 'sqlite_%';".

Definition count_query (table_name : string) : string :=
  "SELECT COUNT(" ++ "*" ++ ") FROM " ++ dq ++ table_name ++ dq ++ ";".

Definition table_info_query (table_name : string) : string :=
  "PRAGMA table_info('" ++ table_name ++ "');".

Definition bytes_size_query (table_name field : string) : string :=
  "SELECT SUM(LENGTH(" ++ dq ++ field ++ dq ++ ")) FROM "
    ++ dq ++ table_name ++ dq ++ ";".

Definition json_size_query (table_name field : string) : string :=
  "SELECT SUM(LENGTH(CAST(" ++ dq ++ field ++ dq ++ " AS TEXT))) FROM "
    ++ dq ++ table_name ++ dq ++ ";".

Definition length_part (field : string) : string :=
  "LENGTH(" ++ dq ++ field ++ dq ++ ")".

Definition str_size_query (table_name : string) (parts : list string) : string :=
  "SELECT SUM(" ++ join " + " parts ++ ") FROM " ++ dq ++ table_name ++ dq ++ ";".

(** ** Effects

    What a run does to the outside world, in order: the SQL it executes on
    the cursor, the lines it prints on stderr, and closing the connection. *)
Inductive event : Type :=
| Execute (sql : string)
| Stderr (line : string)
| Close.

(** A computation: the events it produced, and its value or the exception
    that escaped it. *)
Definition run (A : Type) : Type := (list event * (exn + A))%type.

Definition log_of {A} (m : run A) : list event := fst m.
Definition outcome {A} (m : run A) : exn + A := snd m.

#[global] Instance run_ret : MRet run := fun A a => ([], inr a).

#[global] Instance run_bind : MBind run := fun A B k m =>
  match m with
  | (l, inl e) => (l, inl e)
  | (l, inr a) => let '(l', r) := k a in ((l ++ l')%list, r)
  end.

(** [print(line, file=sys.stderr)]. *)
Definition eprint (line : string) : run unit := ([Stderr line], inr tt).

(** [cursor.execute(sql)] followed by the fetch: the statement is logged and
    the engine's answer is the outcome. *)
Definition execute {A} (sql : string) (answer : exn + A) : run A :=
  ([Execute sql], answer).

(** [try: body  except sqlite3.Error as e: handler(e)]. *)
Definition try_except {A} (body : run A) (handler : exn -> run A) : run A :=
  match body with
  | (l, inl e) => let '(l', r) := handler e in ((l ++ l')%list, r)
  | (l, inr a) => (l, inr a)
  end.

(** ** The static schema *)

(** One entry of [TABLE_CONFIG].  Every key of the dictionary is optional
    ([None]: the key is absent). *)
Record config : Type := Config {
  bytes_fields : option (list string);
  json_fields : option (list string);
  string_fields : option (list string);
  float_fields : option (list string);
  int_fields : option (list string);
  bigint_fields : option (list string);
  boolean_fields : option (list string);
  datetime_fields : option (list string);
  fixed_fields_estimate_bytes : option Z
}.

(** A row of the fallback's result: [(name, row_count, estimated_size_bytes,
    notes)]. *)
Record table_detail : Type := Detail {
  name : string;
  row_count : Z;
  estimated_size_bytes : Z;
  notes : string
}.

(** [len(fields)] as an [int]. *)
Definition len {A} (l : list A) : Z := Z.of_nat (length l).

(** [field in columns_info]. *)
Definition has_column (field : string) (columns_info : list string) : bool :=
  bool_decide (field ∈ columns_info).

(** ** The schema of the script

    The estimators above take the schema as an argument, so that statements
    can range over schemas; the script runs them at this one. *)
Definition TABLE_CONFIG : gmap string config :=
  list_to_map [
    ("HeliusTransactionCache",
     {|
       bytes_fields := None;
       json_fields := None;
       string_fields := Some ["signature"];
       float_fields := None;
       int_fields := Some ["timestamp"];
       bigint_fields := None;
       boolean_fields := None;
       datetime_fields := Some ["fetchedAt"];
       fixed_fields_estimate_bytes := Some 0 |});
    ("SwapAnalysisInput",
     {|
       bytes_fields := None;
       json_fields := None;
       string_fields := Some ["walletAddress"; "signature"; "mint"; "direction"; "interactionType"];
       float_fields := Some ["amount"; "associatedSolValue"; "associatedUsdcValue"; "feeAmount";
           "feePercentage"];
       int_fields := Some ["id"; "timestamp"];
       bigint_fields := None;
       boolean_fields := None;
       datetime_fields := None;
       fixed_fields_estimate_bytes := Some 0 |});
    ("Wallet",
     {|
       bytes_fields := None;
       json_fields := Some ["botPatternTags"];
       string_fields := Some ["address"; "newestProcessedSignature"; "classification";
           "classificationMethod"; "botType"];
       float_fields := Some ["classificationConfidence"];
       int_fields := Some ["firstProcessedTimestamp"; "newestProcessedTimestamp";
           "analyzedTimestampStart"; "analyzedTimestampEnd"];
       bigint_fields := None;
       boolean_fields := Some ["isVerifiedBot"];
       datetime_fields := Some ["lastSuccessfulFetchTimestamp"; "classificationUpdatedAt"];
       fixed_fields_estimate_bytes := Some 0 |});
    ("AnalysisResult",
     {|
       bytes_fields := None;
       json_fields := None;
       string_fields := Some ["walletAddress"; "tokenAddress"; "currentRawBalance";
           "currentUiBalanceString"; "preservationType"];
       float_fields := Some ["totalAmountIn"; "totalAmountOut"; "netAmountChange";
           "totalSolSpent"; "totalSolReceived"; "totalFeesPaidInSol";
           "netSolProfitLoss"; "estimatedPreservedValue"; "currentUiBalance"];
       int_fields := Some ["id"; "transferCountIn"; "transferCountOut";
           "firstTransferTimestamp"; "lastTransferTimestamp"; "balanceDecimals"];
       bigint_fields := None;
       boolean_fields := Some ["isValuePreservation"];
       datetime_fields := Some ["balanceFetchedAt"; "updatedAt"];
       fixed_fields_estimate_bytes := Some 0 |});
    ("WalletPnlSummary",
     {|
       bytes_fields := None;
       json_fields := None;
       string_fields := Some ["walletAddress"];
       float_fields := Some ["totalVolume"; "totalFees"; "realizedPnl"; "unrealizedPnl"; "netPnl";
           "stablecoinNetFlow"; "averageSwapSize";
           "averageRealizedPnlPerExecutedSwap"; "realizedPnlToTotalVolumeRatio";
           "currentSolBalance"];
       int_fields := Some ["id"; "profitableTokensCount"; "unprofitableTokensCount";
           "totalExecutedSwapsCount"; "totalSignaturesProcessed";
           "overallFirstTimestamp"; "overallLastTimestamp"];
       bigint_fields := None;
       boolean_fields := None;
       datetime_fields := Some ["solBalanceFetchedAt"; "updatedAt"];
       fixed_fields_estimate_bytes := Some 0 |});
    ("AdvancedTradeStats",
     {|
       bytes_fields := None;
       json_fields := None;
       string_fields := None;
       float_fields := Some ["medianPnlPerToken"; "trimmedMeanPnlPerToken"; "tokenWinRatePercent";
           "standardDeviationPnl"; "profitConsistencyIndex";
           "weightedEfficiencyScore"; "averagePnlPerDayActiveApprox"];
       int_fields := Some ["id"; "walletPnlSummaryId"; "firstTransactionTimestamp";
           "lastTransactionTimestamp"];
       bigint_fields := None;
       boolean_fields := None;
       datetime_fields := Some ["updatedAt"];
       fixed_fields_estimate_bytes := Some 0 |});
    ("WalletBehaviorProfile",
     {|
       bytes_fields := None;
       json_fields := Some ["tradingTimeDistribution"; "tradingFrequency"; "tokenPreferences";
           "riskMetrics"; "activeTradingPeriods"];
       string_fields := Some ["walletAddress"; "tradingStyle"];
       float_fields := Some ["buySellRatio"; "buySellSymmetry"; "averageFlipDurationHours";
           "medianHoldTime"; "sequenceConsistency"; "flipperScore";
           "averageTradesPerToken"; "percentTradesUnder1Hour";
           "percentTradesUnder4Hours"; "confidenceScore"; "reentryRate";
           "percentageOfUnpairedTokens"; "avgTradesPerSession";
           "averageSessionStartHour"; "averageSessionDurationMinutes"];
       int_fields := Some ["id"; "uniqueTokensTraded"; "tokensWithBothBuyAndSell";
           "totalTradeCount"; "totalBuyCount"; "totalSellCount";
           "completePairsCount"; "sessionCount"; "firstTransactionTimestamp";
           "lastTransactionTimestamp"];
       bigint_fields := None;
       boolean_fields := None;
       datetime_fields := Some ["updatedAt"];
       fixed_fields_estimate_bytes := Some 0 |});
    ("AnalysisRun",
     {|
       bytes_fields := None;
       json_fields := None;
       string_fields := Some ["walletAddress"; "serviceInvoked"; "status"; "errorMessage"; "notes"];
       float_fields := None;
       int_fields := Some ["id"; "inputDataStartTs"; "inputDataEndTs"; "signaturesConsidered";
           "durationMs"];
       bigint_fields := None;
       boolean_fields := None;
       datetime_fields := Some ["runTimestamp"];
       fixed_fields_estimate_bytes := Some 0 |});
    ("User",
     {|
       bytes_fields := None;
       json_fields := None;
       string_fields := Some ["id"; "apiKey"; "description"];
       float_fields := None;
       int_fields := None;
       bigint_fields := None;
       boolean_fields := Some ["isDemo"; "isActive"];
       datetime_fields := Some ["createdAt"; "lastSeenAt"];
       fixed_fields_estimate_bytes := Some 0 |});
    ("ActivityLog",
     {|
       bytes_fields := None;
       json_fields := None;
       string_fields := Some ["id"; "userId"; "actionType"; "requestParameters"; "status";
           "errorMessage"; "sourceIp"; "walletAddress"];
       float_fields := None;
       int_fields := Some ["durationMs"];
       bigint_fields := None;
       boolean_fields := None;
       datetime_fields := Some ["timestamp"];
       fixed_fields_estimate_bytes := Some 0 |});
    ("MappingActivityLog",
     {|
       bytes_fields := None;
       json_fields := Some ["countByInteractionType"];
       string_fields := Some ["id"; "walletAddress"];
       float_fields := None;
       int_fields := Some ["totalTransactionsReceived"; "transactionsSkippedError";
           "transactionsSuccessfullyProcessed"; "analysisInputsGenerated";
           "nativeSolTransfersProcessed"; "tokenTransfersProcessed";
           "wsolTransfersProcessed"; "usdcTransfersProcessed";
           "otherTokenTransfersProcessed"; "feePayerHeuristicApplied";
           "feesCalculated"; "eventMatcherAttempts";
           "eventMatcherPrimaryMintsIdentified";
           "eventMatcherConsistentSolFound"; "eventMatcherConsistentUsdcFound";
           "eventMatcherAmbiguous"; "eventMatcherNoConsistentValue";
           "splToSplSwapDetections"; "associatedValueFromSplToSpl";
           "associatedValueFromEventMatcher";
           "associatedValueFromTotalMovement"; "associatedValueFromNetChange";
           "smallOutgoingHeuristicApplied"; "skippedDuplicateRecordKey";
           "unknownTxSkippedNoJito"];
       bigint_fields := None;
       boolean_fields := None;
       datetime_fields := Some ["timestamp"];
       fixed_fields_estimate_bytes := Some 0 |});
    ("WalletNote",
     {|
       bytes_fields := None;
       json_fields := None;
       string_fields := Some ["id"; "content"; "walletAddress"; "userId"];
       float_fields := None;
       int_fields := None;
       bigint_fields := None;
       boolean_fields := None;
       datetime_fields := Some ["createdAt"; "updatedAt"];
       fixed_fields_estimate_bytes := Some 0 |});
    ("UserFavoriteWallet",
     {|
       bytes_fields := None;
       json_fields := Some ["metadata"];
       string_fields := Some ["userId"; "walletAddress"; "nickname"; "tags"; "collections"];
       float_fields := None;
       int_fields := None;
       bigint_fields := None;
       boolean_fields := None;
       datetime_fields := Some ["createdAt"; "lastViewedAt"];
       fixed_fields_estimate_bytes := Some 0 |});
    ("TokenInfo",
     {|
       bytes_fields := None;
       json_fields := None;
       string_fields := Some ["tokenAddress"; "name"; "symbol"; "imageUrl"; "websiteUrl";
           "twitterUrl"; "telegramUrl"; "priceUsd"];
       float_fields := Some ["marketCapUsd"; "liquidityUsd"; "fdv"; "volume24h"];
       int_fields := None;
       bigint_fields := Some ["pairCreatedAt"];
       boolean_fields := None;
       datetime_fields := Some ["dexscreenerUpdatedAt"; "fetchedAt"; "updatedAt"];
       fixed_fields_estimate_bytes := Some 0 |})
  ].

(** ** Sorting

    [list.sort(key=..., reverse=True)] and the engine's [ORDER BY ... DESC]:
    descending for the given strict order [lt].  Python's sort is stable
    also when reversed: rows that compare equal keep their order. *)
Fixpoint insert_desc {A} (lt : A -> A -> bool) (x : A) (l : list A) : list A :=
  match l with
  | [] => [x]
  | y :: rest => if lt x y then y :: insert_desc lt x rest else x :: l
  end.

Definition sort_desc {A} (lt : A -> A -> bool) (l : list A) : list A :=
  foldr (insert_desc lt) [] l.

(** [x] may stand before [y] in the sorted list: [x] is not below [y]. *)
Definition not_below {A} (lt : A -> A -> bool) (x y : A) : Prop :=
  lt x y = false.

(** The first component of the sort key of the fallback: the estimate, or
    [float('-inf')]. *)
Inductive size_key : Type :=
| NegInf
| Size (z : Z).

Definition size_key_lt (a b : size_key) : bool :=
  match a, b with
  | NegInf, NegInf => false
  | NegInf, Size _ => true
  | Size _, NegInf => false
  | Size x, Size y => x <? y
  end.

Definition size_key_eqb (a b : size_key) : bool :=
  match a, b with
  | NegInf, NegInf => true
  | Size x, Size y => x =? y
  | _, _ => false
  end.

(** [lambda x: (x[2] if x[2] != -1 else float('-inf'),
               x[1] if x[2] == -1 else 0)]. *)
Definition sort_key (x : table_detail) : size_key * Z :=
  (if estimated_size_bytes x =? -1 then NegInf else Size (estimated_size_bytes x),
   if estimated_size_bytes x =? -1 then row_count x else 0).

(** Python's [<] on the key tuples: the first components decide unless they
    are equal. *)
Definition key_lt (k1 k2 : size_key * Z) : bool :=
  if size_key_eqb k1.1 k2.1 then k1.2 <? k2.2 else size_key_lt k1.1 k2.1.

Definition detail_lt (x y : table_detail) : bool :=
  key_lt (sort_key x) (sort_key y).

(** ** The catalog queries, evaluated *)

(** [name LIKE 'sqlite_%']: [LIKE] folds ASCII case, [_] stands for any one
    character and [%] for any rest. *)
Definition like_sqlite (name : string) : bool :=
  (7 <=? String.length name)%nat
  && String.eqb (string_lower (substring 0 6 name)) "sqlite".

(** [type = 'table' AND name NOT LIKE 'sqlite_%']. *)
Definition user_table (m : master_row) : bool :=
  String.eqb (m_type m) "table" && negb (like_sqlite (m_name m)).

(** The answer to [TABLES_QUERY]. *)
Definition tables_answer (conn : Connection) : exn + list string :=
  match sqlite_master conn with
  | inl e => inl e
  | inr master => inr (m_name <$> List.filter user_table master)
  end.

(** [FROM sqlite_master m JOIN dbstat s ON s.name = m.name WHERE ...]: the
    joined rows, reduced to the two columns the query reads. *)
Definition joined_rows (master : list master_row) (stat : list dbstat_row)
    : list (string * Z) :=
  flat_map
    (fun m =>
       (fun s => (m_name m, s_pgsize s))
         <$> List.filter (fun s => String.eqb (s_name s) (m_name m)) stat)
    (List.filter user_table master).

Definition sum_Z (l : list Z) : Z := foldr Z.add 0 l.

(** [SELECT m.name, SUM(s.pgsize) ... GROUP BY m.name]: one row per name
    among the joined rows. *)
Definition grouped_rows (joined : list (string * Z)) : list (string * Z) :=
  (fun n =>
     (n, sum_Z ((List.filter (fun r => String.eqb r.1 n) joined).*2)))
    <$> remove_dups (joined.*1).

Definition total_lt (r1 r2 : string * Z) : bool := r1.2 <? r2.2.

(** The answer to [DBSTAT_QUERY]. *)
Definition dbstat_answer (conn : Connection) : exn + list (string * Z) :=
  match sqlite_master conn, dbstat conn with
  | inl e, _ => inl e
  | inr _, inl e => inl e
  | inr master, inr stat =>
      inr (sort_desc total_lt (grouped_rows (joined_rows master stat)))
  end.

(** ** The estimators *)

Section Estimators.

(** [format_2f a b] is the text of [f"{a/b:.2f}"]: the float quotient
    rendered with two decimals.  Floating point is not modelled; every
    statement holds whatever this rendering is. *)
Variable format_2f : Z -> Z -> string.

Definition format_bytes (size_bytes : Z) : string :=
  if size_bytes <? 1024 then str_of_int size_bytes ++ " B"
  else if size_bytes <? 1024 ^ 2 then format_2f size_bytes 1024 ++ " KB"
  else if size_bytes <? 1024 ^ 3 then format_2f size_bytes (1024 ^ 2) ++ " MB"
  else format_2f size_bytes (1024 ^ 3) ++ " GB".

(** The running pair [(current_table_data_size, notes)] of the loop body. *)
Definition acc : Type := (Z * string)%type.

Definition missing_field_warning (kind field table_name : string) : string :=
  "Warning: " ++ kind ++ " field '" ++ field ++ "' not found in table '"
    ++ table_name ++ "'. Skipping its size calculation.".

(** The loop of the [bytes_fields] and of the [json_fields] block: for each
    declared field, read the live columns, skip the field with a warning when
    it is not among them, else add the aggregate length when it is not
    [NULL]. *)
Fixpoint per_field_loop (kind : string) (size_query : string -> string)
    (answer : string -> exn + option Z) (table_name : string)
    (columns : exn + list string) (fields : list string) (st : acc) : run acc :=
  match fields with
  | [] => mret st
  | field :: rest =>
      columns_info ← execute (table_info_query table_name) columns;
      if has_column field columns_info then
        size_result ← execute (size_query field) (answer field);
        match size_result with
        | Some n =>
            per_field_loop kind size_query answer table_name columns rest
              (st.1 + n,
               st.2 ++ "; " ++ field ++ " (" ++ kind ++ ") total: " ++ format_bytes n)
        | None =>
            per_field_loop kind size_query answer table_name columns rest st
        end
      else
        _ ← eprint (missing_field_warning kind field table_name);
        per_field_loop kind size_query answer table_name columns rest st
  end.

Definition bytes_fields_block (conn : Connection) (table_name : string)
    (cfg : config) (st : acc) : run acc :=
  match bytes_fields cfg with
  | Some fields =>
      per_field_loop "Bytes" (bytes_size_query table_name)
        (sum_length conn table_name) table_name (table_info conn table_name)
        fields st
  | None => mret st
  end.

Definition json_fields_block (conn : Connection) (table_name : string)
    (cfg : config) (st : acc) : run acc :=
  match json_fields cfg with
  | Some fields =>
      per_field_loop "JSON" (json_size_query table_name)
        (sum_length_text conn table_name) table_name (table_info conn table_name)
        fields st
  | None => mret st
  end.

(** The validation loop of the [string_fields] block: the declared fields
    that are live columns, in order, with a warning for each of the others. *)
Fixpoint valid_str_fields (table_name : string) (columns_info : list string)
    (fields : list string) : run (list string) :=
  match fields with
  | [] => mret []
  | field :: rest =>
      if has_column field columns_info then
        valid ← valid_str_fields table_name columns_info rest;
        mret (field :: valid)
      else
        _ ← eprint (missing_field_warning "String" field table_name);
        valid_str_fields table_name columns_info rest
  end.

Definition string_fields_block (conn : Connection) (table_name : string)
    (cfg : config) (st : acc) : run acc :=
  match string_fields cfg with
  | Some fields =>
      columns_info ← execute (table_info_query table_name)
                       (table_info conn table_name);
      valid ← valid_str_fields table_name columns_info fields;
      match valid with
      | [] => mret st
      | _ :: _ =>
          size_result ← execute
                          (str_size_query table_name (length_part <$> valid))
                          (sum_lengths conn table_name valid);
          match size_result with
          | Some n =>
              mret (st.1 + n,
                    st.2 ++ "; String fields total: " ++ format_bytes n)
          | None => mret st
          end
      end
  | None => mret st
  end.

(** A group of fixed-width columns: [count * width * row_count] bytes, with
    no look at the live table. *)
Definition fixed_width_block (label : string) (width : Z)
    (declared : option (list string)) (row_count : Z) (st : acc) : acc :=
  match declared with
  | Some fields =>
      let count := len fields in
      let size_bytes := count * width * row_count in
      (st.1 + size_bytes,
       st.2 ++ "; " ++ label ++ " fields (" ++ str_of_int count ++ " fields): "
         ++ format_bytes size_bytes)
  | None => st
  end.

Definition float_fields_block (cfg : config) :=
  fixed_width_block "Float" 8 (float_fields cfg).
Definition int_fields_block (cfg : config) :=
  fixed_width_block "Int" 4 (int_fields cfg).
Definition bigint_fields_block (cfg : config) :=
  fixed_width_block "BigInt" 8 (bigint_fields cfg).
Definition boolean_fields_block (cfg : config) :=
  fixed_width_block "Boolean" 1 (boolean_fields cfg).
Definition datetime_fields_block (cfg : config) :=
  fixed_width_block "DateTime" 8 (datetime_fields cfg).

Definition fixed_fields_block (cfg : config) (row_count : Z) (st : acc) : acc :=
  match fixed_fields_estimate_bytes cfg with
  | Some per_row => (st.1 + per_row * row_count, st.2)
  | None => st
  end.

(** The blocks that only count declared names, in the order of the script. *)
Definition declared_blocks (cfg : config) (row_count : Z) (st : acc) : acc :=
  fixed_fields_block cfg row_count
    (datetime_fields_block cfg row_count
      (boolean_fields_block cfg row_count
        (bigint_fields_block cfg row_count
          (int_fields_block cfg row_count
            (float_fields_block cfg row_count st))))).

(** The blocks that query the table, in the order of the script. *)
Definition queried_blocks (conn : Connection) (table_name : string)
    (cfg : config) (st : acc) : run acc :=
  st ← bytes_fields_block conn table_name cfg st;
  st ← json_fields_block conn table_name cfg st;
  string_fields_block conn table_name cfg st.

(** The body of the [try] of one loop iteration. *)
Definition process_table (table_config : gmap string config)
    (conn : Connection) (table_name : string) : run table_detail :=
  row_count ← execute (count_query table_name) (count_rows conn table_name);
  if row_count =? 0 then mret (Detail table_name 0 0 "Empty table")
  else
    let notes := format_commas row_count ++ " rows" in
    match table_config !! table_name with
    | Some cfg =>
        st ← queried_blocks conn table_name cfg (0, notes);
        let st := declared_blocks cfg row_count st in
        mret (Detail table_name row_count st.1 st.2)
    | None =>
        mret (Detail table_name row_count (-1)
                (notes ++ " (size not specifically estimated)"))
    end.

(** One loop iteration: the [try] with its [except sqlite3.Error]. *)
Definition table_step (table_config : gmap string config)
    (conn : Connection) (table_name : string) : run table_detail :=
  try_except (process_table table_config conn table_name)
    (fun e =>
       _ ← eprint ("Error processing table " ++ table_name ++ ": " ++ str e);
       mret (Detail table_name 0 0 ("Error: " ++ str e))).

(** [analyze_with_dbstat]: the rows of the [dbstat] query, or [None] when
    there are none or when the query raised. *)
Definition analyze_with_dbstat (conn : Connection)
    : run (option (list (string * Z))) :=
  try_except
    (results ← execute DBSTAT_QUERY (dbstat_answer conn);
     match results with
     | [] => mret None
     | _ :: _ => mret (Some results)
     end)
    (fun e =>
       match e with
       | OperationalError msg =>
           if contains "no such table: dbstat" msg then mret None
           else
             _ ← eprint ("An SQL error occurred with dbstat: " ++ msg);
             mret None
       | OtherSqliteError msg =>
           _ ← eprint ("An unexpected error occurred during dbstat analysis: "
                        ++ msg);
           mret None
       end).

(** [estimate_table_sizes_fallback].  The catalog query is outside every
    [try]: its error escapes. *)
Definition estimate_table_sizes_fallback (table_config : gmap string config)
    (conn : Connection) : run (list table_detail) :=
  tables ← execute TABLES_QUERY (tables_answer conn);
  table_details ← mapM (table_step table_config conn) tables;
  mret (sort_desc detail_lt table_details).

(** ** The entry point *)

Definition DB_PATH : string := "dev.db".

(** What [main] finds outside the database. *)
Record Env : Type := {
  (** [os.getcwd()] *)
  getcwd : string;
  (** [os.path.exists(DB_PATH)] *)
  exists_db : bool;
  (** [os.path.getsize(DB_PATH)], or the text of the [OSError] *)
  getsize : string + Z;
  (** [sqlite3.connect(DB_PATH)] *)
  connect : exn + Connection
}.

(** The body of the [try] of [main] once connected. *)
Definition analysis (table_config : gmap string config) (conn : Connection)
    : run unit :=
  dbstat_results ← analyze_with_dbstat conn;
  match dbstat_results with
  | None => _ ← estimate_table_sizes_fallback table_config conn; mret tt
  | Some _ => mret tt
  end.

(** [main]: the events of the run and the exit status of the process. *)
Definition main (table_config : gmap string config) (env : Env)
    : list event * Z :=
  if negb (exists_db env) then
    ([Stderr ("Error: Database file '" ++ DB_PATH
              ++ "' not found in current directory (" ++ getcwd env ++ ").");
      Stderr ("Please ensure the script is in the same directory as '"
              ++ DB_PATH ++ "', or update DB_PATH.")], 1)
  else
    let size_log :=
      match getsize env with
      | inl e => [Stderr ("Error getting file size for " ++ DB_PATH ++ ": " ++ e)]
      | inr _ => []
      end in
    let connection_error e :=
      Stderr ("SQLite connection error to '" ++ DB_PATH ++ "': " ++ str e) in
    match connect env with
    | inl e => ((size_log ++ [connection_error e])%list, 1)
    | inr conn =>
        match analysis table_config conn with
        | (l, inr _) => ((size_log ++ l ++ [Close])%list, 0)
        | (l, inl e) => ((size_log ++ l ++ [connection_error e; Close])%list, 1)
        end
    end.

End Estimators.

(** ** Reading a schema entry *)

(** The names a group declares; none when the key is absent. *)
Definition declared (group : option (list string)) : list string :=
  default [] group.

(** What an aggregate query adds: its value, nothing for [NULL]. *)
Definition null_to_zero (answer : exn + option Z) : Z :=
  match answer with
  | inr (Some n) => n
  | _ => 0
  end.

(** The declared fields that are live columns. *)
Definition valid_fields (cols : list string) (fields : list string)
    : list string :=
  List.filter (fun f => has_column f cols) fields.

(** The live columns of a table, as [PRAGMA table_info] reports them. *)
Definition live_columns (conn : Connection) (table_name : string)
    : list string :=
  match table_info conn table_name with
  | inr cols => cols
  | inl _ => []
  end.

(** A query that answers rather than raises. *)
Definition answered {A} (answer : exn + A) : bool :=
  match answer with
  | inr _ => true
  | inl _ => false
  end.

(** The bytes that a group queried field by field adds: over its valid
    fields, the aggregate length of each. *)
Definition per_field_total (answer : string -> exn + option Z)
    (cols fields : list string) : Z :=
  sum_Z ((fun f => null_to_zero (answer f)) <$> valid_fields cols fields).

(** The bytes that the string group adds: the one aggregate over its valid
    fields, when there is any. *)
Definition string_total (conn : Connection) (table_name : string)
    (cols fields : list string) : Z :=
  match valid_fields cols fields with
  | [] => 0
  | valid => null_to_zero (sum_lengths conn table_name valid)
  end.

Definition bytes_size (conn : Connection) (t : string) (cfg : config) : Z :=
  per_field_total (sum_length conn t) (live_columns conn t)
    (declared (bytes_fields cfg)).

Definition json_size (conn : Connection) (t : string) (cfg : config) : Z :=
  per_field_total (sum_length_text conn t) (live_columns conn t)
    (declared (json_fields cfg)).

Definition string_size (conn : Connection) (t : string) (cfg : config) : Z :=
  string_total conn t (live_columns conn t) (declared (string_fields cfg)).

(** The bytes of the groups that are only counted, for [n] rows. *)
Definition declared_size (cfg : config) (n : Z) : Z :=
  len (declared (float_fields cfg)) * 8 * n
  + len (declared (int_fields cfg)) * 4 * n
  + len (declared (bigint_fields cfg)) * 8 * n
  + len (declared (boolean_fields cfg)) * 1 * n
  + len (declared (datetime_fields cfg)) * 8 * n
  + default 0 (fixed_fields_estimate_bytes cfg) * n.

(** The estimate as the specification sums it: string and JSON lengths, the
    five counted groups and the fixed overhead. *)
Definition specified_size (conn : Connection) (t : string) (cfg : config)
    (n : Z) : Z :=
  json_size conn t cfg + string_size conn t cfg + declared_size cfg n.

(** The estimate as the script sums it: the same, and the lengths of the
    [bytes_fields] group. *)
Definition expected_size (conn : Connection) (t : string) (cfg : config)
    (n : Z) : Z :=
  bytes_size conn t cfg + specified_size conn t cfg n.

(** Every query that the estimate of a configured table sends beyond the
    row count answers. *)
Definition queries_answered (conn : Connection) (t : string) (cfg : config)
    : bool :=
  let cols := live_columns conn t in
  answered (table_info conn t)
  && forallb (fun f => answered (sum_length conn t f))
       (valid_fields cols (declared (bytes_fields cfg)))
  && forallb (fun f => answered (sum_length_text conn t f))
       (valid_fields cols (declared (json_fields cfg)))
  && match valid_fields cols (declared (string_fields cfg)) with
     | [] => true
     | valid => answered (sum_lengths conn t valid)
     end.

(** A schema entry that declares one group of [int] columns and a fixed
    overhead of zero, nothing else. *)
Definition ints_only (fields : list string) : config :=
  {| bytes_fields := None; json_fields := None; string_fields := None;
     float_fields := None; int_fields := Some fields; bigint_fields := None;
     boolean_fields := None; datetime_fields := None;
     fixed_fields_estimate_bytes := Some 0 |}.

(** A schema entry that declares [int] and boolean columns and a fixed
    overhead of zero, nothing else. *)
Definition ints_and_booleans (ints booleans : list string) : config :=
  {| bytes_fields := None; json_fields := None; string_fields := None;
     float_fields := None; int_fields := Some ints; bigint_fields := None;
     boolean_fields := Some booleans; datetime_fields := None;
     fixed_fields_estimate_bytes := Some 0 |}.

(** The groups whose columns are only counted. *)
Inductive counted_group : Type :=
| FloatFields
| IntFields
| BigIntFields
| BooleanFields
| DateTimeFields.

(** The bytes the script takes a column of the group to occupy. *)
Definition group_width (g : counted_group) : Z :=
  match g with
  | FloatFields => 8
  | IntFields => 4
  | BigIntFields => 8
  | BooleanFields => 1
  | DateTimeFields => 8
  end.

Definition counted_fields (g : counted_group) (cfg : config)
    : option (list string) :=
  match g with
  | FloatFields => float_fields cfg
  | IntFields => int_fields cfg
  | BigIntFields => bigint_fields cfg
  | BooleanFields => boolean_fields cfg
  | DateTimeFields => datetime_fields cfg
  end.

(** The schema entry with the key of one counted group removed. *)
Definition without_counted (g : counted_group) (cfg : config) : config :=
  {| bytes_fields := bytes_fields cfg;
     json_fields := json_fields cfg;
     string_fields := string_fields cfg;
     float_fields :=
       match g with FloatFields => None | _ => float_fields cfg end;
     int_fields :=
       match g with IntFields => None | _ => int_fields cfg end;
     bigint_fields :=
       match g with BigIntFields => None | _ => bigint_fields cfg end;
     boolean_fields :=
       match g with BooleanFields => None | _ => boolean_fields cfg end;
     datetime_fields :=
       match g with DateTimeFields => None | _ => datetime_fields cfg end;
     fixed_fields_estimate_bytes := fixed_fields_estimate_bytes cfg |}.

(** The groups whose columns are measured by a query. *)
Inductive queried_group : Type :=
| BytesFields
| JsonFields
| StringFields.

(** The word for the group in the warnings. *)
Definition group_kind (g : queried_group) : string :=
  match g with
  | BytesFields => "Bytes"
  | JsonFields => "JSON"
  | StringFields => "String"
  end.

Definition queried_fields (g : queried_group) (cfg : config)
    : option (list string) :=
  match g with
  | BytesFields => bytes_fields cfg
  | JsonFields => json_fields cfg
  | StringFields => string_fields cfg
  end.

(** The schema entry with the key of one queried group set anew. *)
Definition with_queried (g : queried_group) (v : option (list string))
    (cfg : config) : config :=
  {| bytes_fields :=
       match g with BytesFields => v | _ => bytes_fields cfg end;
     json_fields :=
       match g with JsonFields => v | _ => json_fields cfg end;
     string_fields :=
       match g with StringFields => v | _ => string_fields cfg end;
     float_fields := float_fields cfg;
     int_fields := int_fields cfg;
     bigint_fields := bigint_fields cfg;
     boolean_fields := boolean_fields cfg;
     datetime_fields := datetime_fields cfg;
     fixed_fields_estimate_bytes := fixed_fields_estimate_bytes cfg |}.

(** A list of declared names without one name. *)
Definition without_field (field : string) (fields : list string)
    : list string :=
  List.filter (fun f => negb (String.eqb f field)) fields.

(** ** Example databases

    Concrete schemas and connections on which the statements below are
    exercised. *)

(** A rendering to run the estimators with: [a/b] rounded to two decimals,
    half to even.  For [0 <= a < 2^53] and [b] a power of two the float
    quotient is exact and this is the text Python prints. *)
Definition two_decimals (a b : Z) : string :=
  let scaled := a * 100 in
  let q := scaled / b in
  let r := scaled mod b in
  let hundredths :=
    if (b <? 2 * r) || ((2 * r =? b) && Z.odd q) then q + 1 else q in
  let cents := hundredths mod 100 in
  str_of_int (hundredths / 100) ++ "."
    ++ (if cents <? 10 then "0" ++ str_of_int cents else str_of_int cents).

Definition wallet_cfg : config :=
  {| bytes_fields := None;
     json_fields := Some ["tags"; "legacy"];
     string_fields := Some ["address"; "label"; "nickname"];
     float_fields := Some ["score"];
     int_fields := Some ["a"; "b"];
     bigint_fields := None;
     boolean_fields := Some ["c"];
     datetime_fields := None;
     fixed_fields_estimate_bytes := Some 0 |}.

Definition demo_schema : gmap string config := {[ "Wallet" := wallet_cfg ]}.

(** A database without [dbstat]: [Wallet] has 2 rows and has lost the
    columns [legacy], [nickname] and [score]; [Audit] has no schema entry;
    [Empty] has no rows; counting [Broken] fails. *)
Definition demo_conn : Connection :=
  {| sqlite_master :=
       inr [MasterRow "table" "Wallet"; MasterRow "table" "sqlite_sequence";
            MasterRow "index" "Wallet_idx"; MasterRow "table" "Audit";
            MasterRow "table" "Empty"; MasterRow "table" "Broken"];
     dbstat := inl (OperationalError "no such table: dbstat");
     count_rows := fun t =>
       if String.eqb t "Wallet" then inr 2
       else if String.eqb t "Audit" then inr 1234
       else if String.eqb t "Empty" then inr 0
       else if String.eqb t "Ledger" then inr 7
       else inl (OtherSqliteError "database disk image is malformed");
     table_info := fun _ => inr ["address"; "label"; "tags"; "a"; "b"; "c"];
     sum_length := fun _ _ => inr None;
     sum_length_text := fun _ _ => inr None;
     sum_lengths := fun _ _ => inr (Some 90) |}.

(** The same tables seen with other live columns and only [NULL] strings. *)
Definition null_conn : Connection :=
  {| sqlite_master := sqlite_master demo_conn;
     dbstat := dbstat demo_conn;
     count_rows := count_rows demo_conn;
     table_info := fun _ => inr ["address"];
     sum_length := fun _ _ => inr None;
     sum_length_text := fun _ _ => inr None;
     sum_lengths := fun _ _ => inr None |}.

(** A database with [dbstat]. *)
Definition stat_conn : Connection :=
  {| sqlite_master :=
       inr [MasterRow "table" "Wallet"; MasterRow "table" "sqlite_sequence";
            MasterRow "index" "Wallet_idx"; MasterRow "table" "Audit"];
     dbstat :=
       inr [DbstatRow "Wallet" 4096; DbstatRow "Audit" 4096;
            DbstatRow "Wallet_idx" 4096; DbstatRow "Audit" 4096;
            DbstatRow "sqlite_sequence" 4096];
     count_rows := count_rows demo_conn;
     table_info := table_info demo_conn;
     sum_length := sum_length demo_conn;
     sum_length_text := sum_length_text demo_conn;
     sum_lengths := sum_lengths demo_conn |}.

Definition demo_env (conn : Connection) : Env :=
  {| getcwd := "/srv/analyzer/prisma"; exists_db := true;
     getsize := inr 1048576; connect := inr conn |}.

(** A schema entry with a [bytes_fields] group only, and a table for it. *)
Definition blob_cfg : config :=
  {| bytes_fields := Some ["data"]; json_fields := None;
     string_fields := None; float_fields := None; int_fields := None;
     bigint_fields := None; boolean_fields := None; datetime_fields := None;
     fixed_fields_estimate_bytes := Some 0 |}.

Definition blob_conn : Connection :=
  {| sqlite_master := inr [MasterRow "table" "Blob"];
     dbstat := inl (OperationalError "no such table: dbstat");
     count_rows := fun _ => inr 1;
     table_info := fun _ => inr ["id"; "data"];
     sum_length := fun _ _ => inr (Some 5);
     sum_length_text := fun _ _ => inr None;
     sum_lengths := fun _ _ => inr None |}.

(** A table of 2 rows whose only live column is [id], under a schema entry
    that declares the [int] column [ghost]. *)
Definition drift_conn : Connection :=
  {| sqlite_master := inr [MasterRow "table" "Drift"];
     dbstat := inl (OperationalError "no such table: dbstat");
     count_rows := fun _ => inr 2;
     table_info := fun _ => inr ["id"];
     sum_length := fun _ _ => inr None;
     sum_length_text := fun _ _ => inr None;
     sum_lengths := fun _ _ => inr None |}.

(** The fallback estimator has run: its catalog query, which nothing else
    sends, is among the events. *)
Definition fallback_invoked (events : list event) : Prop :=
  Execute TABLES_QUERY ∈ events.


(** The user tables of [demo_conn], and what the fallback estimator returns
    for them under [demo_schema]. *)
Definition demo_tables : list string := ["Wallet"; "Audit"; "Empty"; "Broken"].

Definition wallet_notes : string :=
  "2 rows; String fields total: 90 B; Float fields (1 fields): 16 B; "
  ++ "Int fields (2 fields): 16 B; Boolean fields (1 fields): 2 B".

Definition demo_result : list table_detail :=
  [Detail "Wallet" 2 124 wallet_notes;
   Detail "Empty" 0 0 "Empty table";
   Detail "Broken" 0 0 "Error: database disk image is malformed";
   Detail "Audit" 1234 (-1) "1,234 rows (size not specifically estimated)"].

(** ** More readings of a run *)

#[global] Instance exn_eq_dec : EqDecision exn.
Proof. solve_decision. Defined.

#[global] Instance event_eq_dec : EqDecision event.
Proof. solve_decision. Defined.

#[global] Instance size_key_eq_dec : EqDecision size_key.
Proof. solve_decision. Defined.

(** How many times a statement was executed. *)
Definition executions (sql : string) (events : list event) : nat :=
  length (filter (fun ev => ev = Execute sql) events).

(** The events the two estimators can produce: a line on stderr, or one of
    the seven statements of the script. *)
Inductive script_event : event -> Prop :=
| script_stderr line : script_event (Stderr line)
| script_dbstat : script_event (Execute DBSTAT_QUERY)
| script_tables : script_event (Execute TABLES_QUERY)
| script_count t : script_event (Execute (count_query t))
| script_table_info t : script_event (Execute (table_info_query t))
| script_bytes_size t f : script_event (Execute (bytes_size_query t f))
| script_json_size t f : script_event (Execute (json_size_query t f))
| script_str_size t parts : script_event (Execute (str_size_query t parts)).

(** A statement that only reads: the [dbstat] query, a [SELECT], or
    [PRAGMA table_info]. *)
Definition reads_only (sql : string) : Prop :=
  sql = DBSTAT_QUERY
  \/ String.prefix "SELECT " sql = true
  \/ exists t, sql = table_info_query t.

(** The error that [analyze_with_dbstat] takes for a build without
    [dbstat]. *)
Definition dbstat_missing (e : exn) : bool :=
  match e with
  | OperationalError msg => contains "no such table: dbstat" msg
  | OtherSqliteError _ => false
  end.

(** No aggregate length of the table is negative. *)
Definition lengths_nonnegative (conn : Connection) (t : string) : Prop :=
  (forall f n, sum_length conn t f = inr (Some n) -> 0 <= n)
  /\ (forall f n, sum_length_text conn t f = inr (Some n) -> 0 <= n)
  /\ (forall fs n, sum_lengths conn t fs = inr (Some n) -> 0 <= n).

(** The bytes [dbstat] lists under a name. *)
Definition page_total (n : string) (stat : list dbstat_row) : Z :=
  sum_Z (s_pgsize <$> List.filter (fun s => String.eqb (s_name s) n) stat).

(** The names of the user tables of a catalog. *)
Definition user_table_names (master : list master_row) : list string :=
  m_name <$> List.filter user_table master.

(** An entry of the schema that uses the groups of the specification only
    and no overhead: no [bytes_fields], a fixed overhead of zero. *)
Definition plain_entry (cfg : config) : Prop :=
  bytes_fields cfg = None /\ fixed_fields_estimate_bytes cfg = Some 0.

(** ** The earlier revision, [src/helpers/db/analyze_db_storage_v2.py]

    Its fallback estimator knows the JSON group, the string group and the
    fixed overhead.  The JSON block is that of the later revision; the
    string block adds no note. *)
Module helpers_db.

Section Estimators.

Variable format_2f : Z -> Z -> string.

Definition string_fields_block (conn : Connection) (table_name : string)
    (cfg : config) (st : acc) : run acc :=
  match string_fields cfg with
  | Some fields =>
      columns_info ← execute (table_info_query table_name)
                       (table_info conn table_name);
      valid ← valid_str_fields table_name columns_info fields;
      match valid with
      | [] => mret st
      | _ :: _ =>
          size_result ← execute
                          (str_size_query table_name (length_part <$> valid))
                          (sum_lengths conn table_name valid);
          match size_result with
          | Some n => mret (st.1 + n, st.2)
          | None => mret st
          end
      end
  | None => mret st
  end.

Definition process_table (table_config : gmap string config)
    (conn : Connection) (table_name : string) : run table_detail :=
  row_count ← execute (count_query table_name) (count_rows conn table_name);
  if row_count =? 0 then mret (Detail table_name 0 0 "Empty table")
  else
    let notes := format_commas row_count ++ " rows" in
    match table_config !! table_name with
    | Some cfg =>
        st ← json_fields_block format_2f conn table_name cfg (0, notes);
        st ← string_fields_block conn table_name cfg st;
        let st := fixed_fields_block cfg row_count st in
        mret (Detail table_name row_count st.1 st.2)
    | None =>
        mret (Detail table_name row_count (-1)
                (notes ++ " (size not specifically estimated)"))
    end.

End Estimators.

(** The schema of the earlier revision; its fixed overhead for
    [SwapAnalysisInput] is [8 + 4 + (8 * 5)]. *)
Definition TABLE_CONFIG : gmap string config :=
  list_to_map [
    ("HeliusTransactionCache",
     {|
       bytes_fields := None;
       json_fields := Some ["rawData"];
       string_fields := None;
       float_fields := None;
       int_fields := None;
       bigint_fields := None;
       boolean_fields := None;
       datetime_fields := None;
       fixed_fields_estimate_bytes := Some 0 |});
    ("SwapAnalysisInput",
     {|
       bytes_fields := None;
       json_fields := None;
       string_fields := Some ["walletAddress"; "signature"; "mint"; "direction";
           "interactionType"];
       float_fields := None;
       int_fields := None;
       bigint_fields := None;
       boolean_fields := None;
       datetime_fields := None;
       fixed_fields_estimate_bytes := Some (8 + 4 + (8 * 5)) |})
  ].

End helpers_db.

(** Two outcomes of a table that differ at most in the notes. *)
Definition same_estimate (r r' : exn + table_detail) : Prop :=
  match r, r' with
  | inr d, inr d' =>
      name d = name d' /\ row_count d = row_count d'
      /\ estimated_size_bytes d = estimated_size_bytes d'
  | inl e, inl e' => e = e'
  | _, _ => False
  end.

(** The [PRAGMA table_info] statements that the estimate of a table under
    a schema entry needs: one for each declared bytes field, one for each
    declared JSON field, one for the string group. *)
Definition table_info_reads (cfg : config) : nat :=
  length (declared (bytes_fields cfg)) + length (declared (json_fields cfg))
  + (if string_fields cfg is Some _ then 1 else 0).

(** A schema entry as the earlier revision reads it: the JSON group, the
    string group and the fixed overhead. *)
Definition earlier_groups (cfg : config) : Prop :=
  bytes_fields cfg = None /\ float_fields cfg = None
  /\ int_fields cfg = None /\ bigint_fields cfg = None
  /\ boolean_fields cfg = None /\ datetime_fields cfg = None.

(** ** More example databases *)

(** The catalog of [demo_conn]. *)
Definition demo_master : list master_row :=
  [MasterRow "table" "Wallet"; MasterRow "table" "sqlite_sequence";
   MasterRow "index" "Wallet_idx"; MasterRow "table" "Audit";
   MasterRow "table" "Empty"; MasterRow "table" "Broken"].

(** The catalog and the pages of [stat_conn]. *)
Definition stat_master : list master_row :=
  [MasterRow "table" "Wallet"; MasterRow "table" "sqlite_sequence";
   MasterRow "index" "Wallet_idx"; MasterRow "table" "Audit"].

Definition stat_pages : list dbstat_row :=
  [DbstatRow "Wallet" 4096; DbstatRow "Audit" 4096;
   DbstatRow "Wallet_idx" 4096; DbstatRow "Audit" 4096;
   DbstatRow "sqlite_sequence" 4096].

(** A database whose catalog cannot be read. *)
Definition locked_conn : Connection :=
  {| sqlite_master := inl (OperationalError "database is locked");
     dbstat := inl (OperationalError "database is locked");
     count_rows := fun _ => inl (OperationalError "database is locked");
     table_info := fun _ => inl (OperationalError "database is locked");
     sum_length := fun _ _ => inl (OperationalError "database is locked");
     sum_length_text := fun _ _ => inl (OperationalError "database is locked");
     sum_lengths := fun _ _ => inl (OperationalError "database is locked") |}.

(** A database of the earlier revision: [SwapAnalysisInput] has 10 rows
    and 1320 characters in its five string columns. *)
Definition swap_conn : Connection :=
  {| sqlite_master := inr [MasterRow "table" "SwapAnalysisInput"];
     dbstat := inl (OperationalError "no such table: dbstat");
     count_rows := fun _ => inr 10;
     table_info := fun _ =>
       inr ["id"; "walletAddress"; "signature"; "mint"; "direction";
            "interactionType"; "amount"];
     sum_length := fun _ _ => inr None;
     sum_length_text := fun _ _ => inr None;
     sum_lengths := fun _ _ => inr (Some 1320) |}.

Section Readings.

Variable format_2f : Z -> Z -> string.

(** The row that one loop iteration appends to [table_details]. *)
Definition table_record (table_config : gmap string config)
    (conn : Connection) (table_name : string) : table_detail :=
  match outcome (process_table format_2f table_config conn table_name) with
  | inr d => d
  | inl e => Detail table_name 0 0 ("Error: " ++ str e)
  end.

(** The block of the script that handles a queried group. *)
Definition group_block (g : queried_group) (conn : Connection) (t : string)
    (cfg : config) (st : acc) : run acc :=
  match g with
  | BytesFields => bytes_fields_block format_2f conn t cfg st
  | JsonFields => json_fields_block format_2f conn t cfg st
  | StringFields => string_fields_block format_2f conn t cfg st
  end.

End Readings.

Section Estimators_facts.

Variable format_2f : Z -> Z -> string.

(** ** Basic facts about computations *)

Lemma outcome_bind_inr {A B} (m : run A) (k : A -> run B) (a : A) :
  outcome m = inr a -> outcome (m ≫= k) = outcome (k a).
Proof.
  destruct m as [l [e|a']]; simpl; intros H; [discriminate|].
  injection H as ->. unfold mbind, run_bind. simpl.
  destruct (k a) as [l' r]. reflexivity.
Qed.

Lemma outcome_bind_inl {A B} (m : run A) (k : A -> run B) (e : exn) :
  outcome m = inl e -> outcome (m ≫= k) = inl e.
Proof.
  destruct m as [l [e'|a]]; simpl; intros H; [|discriminate].
  injection H as ->. reflexivity.
Qed.

Lemma log_bind_inr {A B} (m : run A) (k : A -> run B) (a : A) :
  outcome m = inr a -> log_of (m ≫= k) = (log_of m ++ log_of (k a))%list.
Proof.
  destruct m as [l [e|a']]; simpl; intros H; [discriminate|].
  injection H as ->. unfold mbind, run_bind. simpl.
  destruct (k a) as [l' r]. reflexivity.
Qed.

Lemma bind_inr_inv {A B} (m : run A) (k : A -> run B) (b : B) :
  outcome (m ≫= k) = inr b ->
  exists a, outcome m = inr a /\ outcome (k a) = inr b.
Proof.
  destruct m as [l [e|a]]; simpl; intros H; [discriminate|].
  exists a. split; [reflexivity|].
  unfold mbind, run_bind in H. simpl in H.
  destruct (k a) as [l' r]. exact H.
Qed.

(** ** The sort *)

Section Sorting.

Context {A : Type} (lt : A -> A -> bool).

Hypothesis lt_asym : forall x y, lt x y = true -> lt y x = false.
Hypothesis not_below_trans :
  forall x y z, not_below lt x y -> not_below lt y z -> not_below lt x z.

Lemma insert_desc_perm (x : A) (l : list A) :
  insert_desc lt x l ≡ₚ x :: l.
Proof.
  induction l as [|y l IH]; simpl; [reflexivity|].
  destruct (lt x y); [|reflexivity].
  rewrite IH. apply Permutation_swap.
Qed.

Lemma sort_desc_perm (l : list A) : sort_desc lt l ≡ₚ l.
Proof.
  induction l as [|x l IH]; simpl; [reflexivity|].
  rewrite insert_desc_perm. f_equiv. exact IH.
Qed.

Lemma insert_desc_sorted (x : A) (l : list A) :
  StronglySorted (not_below lt) l ->
  StronglySorted (not_below lt) (insert_desc lt x l).
Proof.
  induction l as [|y l IH]; simpl; intros Hs.
  - repeat constructor.
  - apply StronglySorted_inv in Hs as [Hl Hy].
    destruct (lt x y) eqn:Hxy.
    + constructor; [apply IH, Hl|].
      rewrite insert_desc_perm. constructor; [apply lt_asym, Hxy|exact Hy].
    + constructor; [constructor; assumption|].
      constructor; [exact Hxy|].
      eapply Forall_impl; [exact Hy|].
      intros z Hz. eapply not_below_trans; eassumption.
Qed.

Lemma sort_desc_sorted (l : list A) :
  StronglySorted (not_below lt) (sort_desc lt l).
Proof.
  induction l as [|x l IH]; simpl; [constructor|].
  apply insert_desc_sorted, IH.
Qed.

Lemma sorted_lookup (l : list A) (i j : nat) (x y : A) :
  StronglySorted (not_below lt) l ->
  (i < j)%nat -> l !! i = Some x -> l !! j = Some y -> not_below lt x y.
Proof.
  intros Hs. revert i j.
  induction Hs as [|a l Hs IH Ha]; intros i j Hij Hi Hj; [discriminate|].
  destruct j as [|j]; [lia|].
  destruct i as [|i]; simpl in Hi, Hj.
  - injection Hi as ->.
    rewrite Forall_forall in Ha. apply Ha.
    eapply list_elem_of_lookup_2, Hj.
  - apply (IH i j); [lia|assumption..].
Qed.

End Sorting.

(** ** The blocks of one table *)

Lemma sum_Z_cons (x : Z) (l : list Z) : sum_Z (x :: l) = x + sum_Z l.
Proof. reflexivity. Qed.

Lemma valid_fields_cons (cols : list string) (f : string) (fields : list string) :
  valid_fields cols (f :: fields)
  = if has_column f cols then f :: valid_fields cols fields
    else valid_fields cols fields.
Proof. reflexivity. Qed.

Lemma per_field_loop_outcome kind size_query answer t cols fields st :
  forallb (fun f => answered (answer f)) (valid_fields cols fields) = true ->
  exists notes',
    outcome (per_field_loop format_2f kind size_query answer t (inr cols) fields st)
    = inr (st.1 + per_field_total answer cols fields, notes').
Proof.
  revert st. induction fields as [|f fields IH]; intros st Hok.
  - exists st.2. destruct st as [z n]. simpl. unfold per_field_total. simpl.
    f_equal. f_equal. lia.
  - cbn [per_field_loop].
    rewrite (outcome_bind_inr _ _ cols) by reflexivity.
    rewrite valid_fields_cons in Hok. unfold per_field_total.
    rewrite valid_fields_cons.
    destruct (has_column f cols) eqn:Hcol.
    + simpl in Hok. apply andb_prop in Hok as [Hf Hrest].
      destruct (answer f) as [e|r] eqn:Hans; [discriminate|].
      rewrite (outcome_bind_inr _ _ r) by reflexivity.
      rewrite fmap_cons, sum_Z_cons, Hans.
      destruct r as [n|]; simpl.
      * destruct (IH (st.1 + n, st.2 ++ "; " ++ f ++ " (" ++ kind ++ ") total: "
                             ++ format_bytes format_2f n) Hrest) as [notes' ->].
        exists notes'. unfold per_field_total. simpl. f_equal. f_equal. lia.
      * destruct (IH st Hrest) as [notes' ->].
        exists notes'. reflexivity.
    + rewrite (outcome_bind_inr _ _ tt) by reflexivity.
      destruct (IH st Hok) as [notes' ->]. exists notes'. reflexivity.
Qed.

Lemma valid_str_fields_outcome t cols fields :
  outcome (valid_str_fields t cols fields) = inr (valid_fields cols fields).
Proof.
  induction fields as [|f fields IH]; [reflexivity|].
  cbn [valid_str_fields]. rewrite valid_fields_cons.
  destruct (has_column f cols).
  - rewrite (outcome_bind_inr _ _ _ IH). reflexivity.
  - rewrite (outcome_bind_inr _ _ tt) by reflexivity. exact IH.
Qed.

Lemma string_fields_block_outcome conn t cfg cols st :
  table_info conn t = inr cols ->
  match valid_fields cols (declared (string_fields cfg)) with
  | [] => true
  | valid => answered (sum_lengths conn t valid)
  end = true ->
  exists notes',
    outcome (string_fields_block format_2f conn t cfg st)
    = inr (st.1 + string_total conn t cols (declared (string_fields cfg)), notes').
Proof.
  intros Hcols Hok. unfold string_fields_block, string_total.
  destruct (string_fields cfg) as [fields|];
    [change (declared (Some fields)) with fields in *|].
  - rewrite Hcols.
    rewrite (outcome_bind_inr _ _ cols) by reflexivity.
    rewrite (outcome_bind_inr _ _ _ (valid_str_fields_outcome t cols fields)).
    destruct (valid_fields cols fields) as [|v valid] eqn:Hvalid.
    + exists st.2. destruct st; simpl. f_equal. f_equal. lia.
    + destruct (sum_lengths conn t (v :: valid)) as [e|r]; [discriminate|].
      rewrite (outcome_bind_inr _ _ r) by reflexivity.
      destruct r as [n|]; simpl.
      * eexists. reflexivity.
      * exists st.2. destruct st; simpl. f_equal. f_equal. lia.
  - exists st.2. destruct st; simpl. f_equal. f_equal. lia.
Qed.

Lemma fixed_width_block_size label width group n st :
  (fixed_width_block format_2f label width group n st).1
  = st.1 + len (declared group) * width * n.
Proof.
  destruct group as [fields|]; simpl; [reflexivity|]. unfold len. simpl. lia.
Qed.

Lemma declared_blocks_size cfg n st :
  (declared_blocks format_2f cfg n st).1 = st.1 + declared_size cfg n.
Proof.
  unfold declared_blocks, fixed_fields_block, declared_size.
  unfold datetime_fields_block, boolean_fields_block, bigint_fields_block,
    int_fields_block, float_fields_block.
  destruct (fixed_fields_estimate_bytes cfg) as [per_row|]; simpl;
    rewrite !fixed_width_block_size; lia.
Qed.

Lemma queried_blocks_outcome conn t cfg st :
  queries_answered conn t cfg = true ->
  exists notes',
    outcome (queried_blocks format_2f conn t cfg st)
    = inr (st.1 + (bytes_size conn t cfg + json_size conn t cfg
                   + string_size conn t cfg), notes').
Proof.
  unfold queries_answered, bytes_size, json_size, string_size, live_columns.
  destruct (table_info conn t) as [e|cols] eqn:Hcols; [discriminate|].
  intros Hok. simpl in Hok.
  apply andb_prop in Hok as [Hok Hstr]. apply andb_prop in Hok as [Hbytes Hjson].
  unfold queried_blocks.
  assert (exists n1, outcome (bytes_fields_block format_2f conn t cfg st)
            = inr (st.1 + per_field_total (sum_length conn t) cols
                            (declared (bytes_fields cfg)), n1)) as [n1 H1].
  { unfold bytes_fields_block. rewrite Hcols.
    destruct (bytes_fields cfg) as [fields|].
    - apply per_field_loop_outcome, Hbytes.
    - exists st.2. destruct st; simpl. unfold per_field_total. simpl.
      f_equal. f_equal. lia. }
  rewrite (outcome_bind_inr _ _ _ H1).
  assert (forall st', exists n2,
            outcome (json_fields_block format_2f conn t cfg st')
            = inr (st'.1 + per_field_total (sum_length_text conn t) cols
                             (declared (json_fields cfg)), n2)) as H2.
  { intros st'. unfold json_fields_block. rewrite Hcols.
    destruct (json_fields cfg) as [fields|].
    - apply per_field_loop_outcome, Hjson.
    - exists st'.2. destruct st'; simpl. unfold per_field_total. simpl.
      f_equal. f_equal. lia. }
  destruct (H2 (st.1 + per_field_total (sum_length conn t) cols
                         (declared (bytes_fields cfg)), n1)) as [n2 H2'].
  rewrite (outcome_bind_inr _ _ _ H2').
  destruct (string_fields_block_outcome conn t cfg cols
              ((st.1 + per_field_total (sum_length conn t) cols
                         (declared (bytes_fields cfg)), n1).1
               + per_field_total (sum_length_text conn t) cols
                   (declared (json_fields cfg)), n2) Hcols Hstr)
    as [n3 H3].
  rewrite H3. exists n3. simpl. f_equal. f_equal. lia.
Qed.

(** A schema entry without queried groups sends no query of its own. *)
Lemma queried_blocks_none conn t cfg st :
  bytes_fields cfg = None -> json_fields cfg = None ->
  string_fields cfg = None ->
  queried_blocks format_2f conn t cfg st = ([], inr st).
Proof.
  intros Hb Hj Hs.
  unfold queried_blocks, bytes_fields_block, json_fields_block,
    string_fields_block.
  rewrite Hb, Hj, Hs. reflexivity.
Qed.

(** The outcome of a configured table with rows, from that of its queried
    blocks. *)
Lemma process_table_configured tc conn t cfg n :
  tc !! t = Some cfg -> count_rows conn t = inr n -> n <> 0 ->
  outcome (process_table format_2f tc conn t)
  = match outcome (queried_blocks format_2f conn t cfg
                     (0, format_commas n ++ " rows")) with
    | inl e => inl e
    | inr st =>
        inr (Detail t n (declared_blocks format_2f cfg n st).1
               (declared_blocks format_2f cfg n st).2)
    end.
Proof.
  intros Hcfg Hcount Hn. unfold process_table. rewrite Hcount, Hcfg.
  rewrite (outcome_bind_inr _ _ n) by reflexivity.
  apply Z.eqb_neq in Hn. rewrite Hn.
  destruct (queried_blocks format_2f conn t cfg (0, format_commas n ++ " rows"))
    as [l [e|st]] eqn:Hq.
  - apply outcome_bind_inl. reflexivity.
  - rewrite (outcome_bind_inr _ _ st) by reflexivity. reflexivity.
Qed.

(** ** The loop over the tables *)

Lemma table_step_outcome tc conn t :
  outcome (table_step format_2f tc conn t) = inr (table_record format_2f tc conn t).
Proof.
  unfold table_step, table_record, try_except.
  destruct (process_table format_2f tc conn t) as [l [e|d]]; reflexivity.
Qed.

Lemma mapM_table_step_outcome tc conn tables :
  outcome (mapM (table_step format_2f tc conn) tables)
  = inr (table_record format_2f tc conn <$> tables).
Proof.
  induction tables as [|t tables IH]; [reflexivity|].
  cbn [mapM]. rewrite (outcome_bind_inr _ _ _ (table_step_outcome tc conn t)).
  rewrite (outcome_bind_inr _ _ _ IH). reflexivity.
Qed.

Lemma fallback_outcome tc conn tables :
  tables_answer conn = inr tables ->
  outcome (estimate_table_sizes_fallback format_2f tc conn)
  = inr (sort_desc detail_lt (table_record format_2f tc conn <$> tables)).
Proof.
  intros Htables. unfold estimate_table_sizes_fallback. rewrite Htables.
  rewrite (outcome_bind_inr _ _ tables) by reflexivity.
  rewrite (outcome_bind_inr _ _ _ (mapM_table_step_outcome tc conn tables)).
  reflexivity.
Qed.

Lemma fallback_reports tc conn tables t :
  tables_answer conn = inr tables -> t ∈ tables ->
  exists l,
    outcome (estimate_table_sizes_fallback format_2f tc conn) = inr l
    /\ table_record format_2f tc conn t ∈ l.
Proof.
  intros Htables Ht. eexists. split; [apply fallback_outcome, Htables|].
  rewrite sort_desc_perm. apply list_elem_of_fmap_2, Ht.
Qed.

Lemma process_table_empty tc conn t :
  count_rows conn t = inr 0 ->
  process_table format_2f tc conn t
  = ([Execute (count_query t)], inr (Detail t 0 0 "Empty table")).
Proof. intros H. unfold process_table. rewrite H. reflexivity. Qed.

Lemma process_table_unconfigured tc conn t n :
  tc !! t = None -> count_rows conn t = inr n -> n <> 0 ->
  process_table format_2f tc conn t
  = ([Execute (count_query t)],
     inr (Detail t n (-1)
            ((format_commas n ++ " rows") ++ " (size not specifically estimated)"))).
Proof.
  intros Hcfg Hcount Hn. unfold process_table. rewrite Hcount, Hcfg.
  apply Z.eqb_neq in Hn. unfold execute, mbind, run_bind. rewrite Hn.
  reflexivity.
Qed.

Lemma table_step_no_error tc conn t l d :
  process_table format_2f tc conn t = (l, inr d) ->
  table_step format_2f tc conn t = (l, inr d).
Proof. intros H. unfold table_step. rewrite H. reflexivity. Qed.

Lemma table_record_inr tc conn t d :
  outcome (process_table format_2f tc conn t) = inr d ->
  table_record format_2f tc conn t = d.
Proof. intros H. unfold table_record. rewrite H. reflexivity. Qed.


(** A failing row count is a failure of the table. *)
Lemma count_failure_raises tc conn t e :
  count_rows conn t = inl e ->
  outcome (process_table format_2f tc conn t) = inl e.
Proof. intros H. unfold process_table. rewrite H. reflexivity. Qed.

(** ** The order of the result *)

(** Case analysis on every integer comparison of the goal. *)
Ltac split_comparisons :=
  repeat match goal with
         | |- context [?x =? ?y] => destruct (Z.eqb_spec x y)
         | |- context [?x <? ?y] => destruct (Z.ltb_spec x y)
         end.

Lemma key_lt_asym (k1 k2 : size_key * Z) :
  key_lt k1 k2 = true -> key_lt k2 k1 = false.
Proof.
  destruct k1 as [[|a] r1], k2 as [[|b] r2]; unfold key_lt; simpl;
    split_comparisons; intros; try congruence; try lia.
Qed.

Lemma key_lt_not_below_trans (k1 k2 k3 : size_key * Z) :
  key_lt k1 k2 = false -> key_lt k2 k3 = false -> key_lt k1 k3 = false.
Proof.
  destruct k1 as [[|a] r1], k2 as [[|b] r2], k3 as [[|c] r3];
    unfold key_lt; simpl;
    split_comparisons; intros; try congruence; try lia.
Qed.

Lemma sort_details_sorted (details : list table_detail) :
  StronglySorted (not_below detail_lt) (sort_desc detail_lt details).
Proof.
  apply sort_desc_sorted.
  - intros x y. apply key_lt_asym.
  - intros x y z. apply key_lt_not_below_trans.
Qed.

Lemma fallback_result_sorted tc conn l :
  outcome (estimate_table_sizes_fallback format_2f tc conn) = inr l ->
  StronglySorted (not_below detail_lt) l.
Proof.
  unfold estimate_table_sizes_fallback. intros H.
  apply bind_inr_inv in H as (tables & _ & H1).
  apply bind_inr_inv in H1 as (details & _ & H2).
  injection H2 as <-. apply sort_details_sorted.
Qed.

(** What [not_below] says of two rows, by their estimates. *)
Lemma not_below_detail (x y : table_detail) :
  not_below detail_lt x y ->
  (estimated_size_bytes x <> -1 -> estimated_size_bytes y <> -1 ->
   estimated_size_bytes y <= estimated_size_bytes x)
  /\ (estimated_size_bytes x = -1 -> estimated_size_bytes y = -1)
  /\ (estimated_size_bytes x = -1 -> estimated_size_bytes y = -1 ->
      row_count y <= row_count x).
Proof.
  unfold not_below, detail_lt, sort_key, key_lt. simpl.
  destruct (Z.eqb_spec (estimated_size_bytes x) (-1)) as [Hx|Hx],
           (Z.eqb_spec (estimated_size_bytes y) (-1)) as [Hy|Hy]; simpl;
    split_comparisons; intros Hnb; try discriminate; repeat split; intros;
    lia.
Qed.

(** ** What the fallback estimator returns *)

(** C2.  In every list the fallback estimator returns, of two rows the
    earlier one has the larger or equal estimate when both estimates are
    known (not [-1]); no row with the sentinel [-1] comes before a row
    with a known estimate; and of two sentinel rows the earlier one has
    the larger or equal row count. *)
Theorem fallback_ordering tc conn l (i j : nat) (x y : table_detail) :
  outcome (estimate_table_sizes_fallback format_2f tc conn) = inr l ->
  (i < j)%nat -> l !! i = Some x -> l !! j = Some y ->
  (estimated_size_bytes x <> -1 -> estimated_size_bytes y <> -1 ->
   estimated_size_bytes y <= estimated_size_bytes x)
  /\ (estimated_size_bytes x = -1 -> estimated_size_bytes y = -1)
  /\ (estimated_size_bytes x = -1 -> estimated_size_bytes y = -1 ->
      row_count y <= row_count x).
Proof.
  intros Hl Hij Hi Hj. apply not_below_detail.
  eapply sorted_lookup; eauto using fallback_result_sorted.
Qed.

(** C3.  A table whose row count is 0 is recorded with size 0 and the
    note "Empty table" after the count query alone, whether or not the
    schema has an entry for it, and that row is in the result. *)
Theorem empty_table_recorded tc conn t :
  count_rows conn t = inr 0 ->
  table_step format_2f tc conn t
  = ([Execute (count_query t)], inr (Detail t 0 0 "Empty table"))
  /\ forall tables,
       tables_answer conn = inr tables -> t ∈ tables ->
       exists l,
         outcome (estimate_table_sizes_fallback format_2f tc conn) = inr l
         /\ Detail t 0 0 "Empty table" ∈ l.
Proof.
  intros Hcount. pose proof (process_table_empty tc conn t Hcount) as Hp.
  split; [apply table_step_no_error, Hp|].
  intros tables Htables Ht.
  destruct (fallback_reports tc conn tables t Htables Ht) as (l & Hl & Hin).
  exists l. split; [exact Hl|].
  rewrite (table_record_inr tc conn t (Detail t 0 0 "Empty table")) in Hin;
    [exact Hin|]. rewrite Hp. reflexivity.
Qed.


(** C7.  A table with N > 0 rows and no schema entry is recorded, after
    the count query alone, with its row count N, the sentinel size -1 and
    the note "N rows (size not specifically estimated)", and that row is
    in the result. *)
Theorem unconfigured_table_recorded tc conn t n :
  tc !! t = None -> count_rows conn t = inr n -> 0 < n ->
  let d := Detail t n (-1)
             ((format_commas n ++ " rows")
                ++ " (size not specifically estimated)") in
  table_step format_2f tc conn t = ([Execute (count_query t)], inr d)
  /\ forall tables,
       tables_answer conn = inr tables -> t ∈ tables ->
       exists l,
         outcome (estimate_table_sizes_fallback format_2f tc conn) = inr l
         /\ d ∈ l.
Proof.
  intros Hcfg Hcount Hn d.
  assert (n <> 0) as Hn0 by lia.
  pose proof (process_table_unconfigured tc conn t n Hcfg Hcount Hn0) as Hp.
  split; [apply table_step_no_error, Hp|].
  intros tables Htables Ht.
  destruct (fallback_reports tc conn tables t Htables Ht) as (l & Hl & Hin).
  exists l. split; [exact Hl|].
  rewrite (table_record_inr tc conn t d) in Hin; [exact Hin|].
  rewrite Hp. reflexivity.
Qed.

(** ** The estimate of a configured table *)

(** X16.  The script knows one group more than the specification lists,
    [bytes_fields], measured field by field like the JSON group.  For a
    table with a schema entry and N > 0 rows whose queries all answer, the
    estimate is the sum of the aggregate lengths of the valid bytes, JSON
    and string fields, of 8, 4, 8, 1 and 8 bytes per row for each declared
    float, int, bigint, boolean and datetime field, and of the fixed
    overhead per row.  An entry declaring only three int fields and zero
    overhead gives 3 * 4 * N, and a table of 2 rows declaring two int
    fields, one boolean field and zero overhead gives 18. *)
Theorem configured_table_estimate tc conn t cfg n :
  tc !! t = Some cfg -> count_rows conn t = inr n -> 0 < n ->
  (queries_answered conn t cfg = true ->
   exists notes,
     outcome (process_table format_2f tc conn t)
     = inr (Detail t n (expected_size conn t cfg n) notes))
  /\ (forall a b c, cfg = ints_only [a; b; c] ->
      exists notes,
        outcome (process_table format_2f tc conn t)
        = inr (Detail t n (3 * 4 * n) notes))
  /\ (forall a b c, cfg = ints_and_booleans [a; b] [c] -> n = 2 ->
      exists notes,
        outcome (process_table format_2f tc conn t)
        = inr (Detail t n 18 notes)).
Proof.
  intros Hcfg Hcount Hn.
  assert (n <> 0) as Hn0 by lia.
  pose proof (process_table_configured tc conn t cfg n Hcfg Hcount Hn0) as Hp.
  split; [|split].
  - intros Hok.
    destruct (queried_blocks_outcome conn t cfg (0, format_commas n ++ " rows") Hok)
      as [notes' Hq].
    rewrite Hq in Hp. eexists. rewrite Hp. f_equal. f_equal.
    rewrite declared_blocks_size. unfold expected_size, specified_size.
    simpl. lia.
  - intros a b c ->.
    rewrite queried_blocks_none in Hp by reflexivity.
    eexists. rewrite Hp. f_equal. f_equal.
    rewrite declared_blocks_size. unfold declared_size, len. simpl. lia.
  - intros a b c -> ->.
    rewrite queried_blocks_none in Hp by reflexivity.
    eexists. rewrite Hp. f_equal.
Qed.

(** C1.  For a table with N > 0 rows and a schema entry of the groups the
    specification lists (no [bytes_fields] key), the estimate is the sum
    of the per-group contributions: the aggregate lengths of the valid
    string and JSON fields, when the queries for them answer, plus 8 bytes
    x float-field count x N, 4 bytes x int-field count x N, 8 bytes x
    bigint-field count x N, 1 byte x boolean-field count x N, 8 bytes x
    datetime-field count x N, plus the fixed overhead x N.  An entry
    declaring only three int fields and zero overhead gives exactly
    3 * 4 * N, and a table of 2 rows declaring two int fields, one boolean
    field and zero overhead gives exactly 18. *)
Theorem specified_table_estimate tc conn t cfg n :
  tc !! t = Some cfg -> count_rows conn t = inr n -> 0 < n ->
  bytes_fields cfg = None ->
  (queries_answered conn t cfg = true ->
   exists notes,
     outcome (process_table format_2f tc conn t)
     = inr (Detail t n (specified_size conn t cfg n) notes))
  /\ (forall a b c, cfg = ints_only [a; b; c] ->
      exists notes,
        outcome (process_table format_2f tc conn t)
        = inr (Detail t n (3 * 4 * n) notes))
  /\ (forall a b c, cfg = ints_and_booleans [a; b] [c] -> n = 2 ->
      exists notes,
        outcome (process_table format_2f tc conn t)
        = inr (Detail t n 18 notes)).
Proof.
  intros Hcfg Hcount Hn Hbytes.
  assert (n <> 0) as Hn0 by lia.
  rewrite (process_table_configured tc conn t cfg n Hcfg Hcount Hn0).
  split; [|split].
  - intros Hok.
    destruct (queried_blocks_outcome conn t cfg (0, format_commas n ++ " rows") Hok)
      as [notes' ->].
    eexists. f_equal. f_equal. rewrite declared_blocks_size.
    unfold specified_size, bytes_size, per_field_total. rewrite Hbytes.
    simpl. lia.
  - intros a b c ->. rewrite queried_blocks_none by reflexivity.
    eexists. f_equal. f_equal.
    rewrite declared_blocks_size. unfold declared_size, len. simpl. lia.
  - intros a b c -> ->. rewrite queried_blocks_none by reflexivity.
    eexists. f_equal.
Qed.

Lemma queried_blocks_without_counted g conn t cfg st :
  queried_blocks format_2f conn t (without_counted g cfg) st
  = queried_blocks format_2f conn t cfg st.
Proof. reflexivity. Qed.

Lemma declared_size_without_counted g cfg n :
  declared_size cfg n
  = declared_size (without_counted g cfg) n
    + len (declared (counted_fields g cfg)) * group_width g * n.
Proof.
  destruct g; unfold declared_size, without_counted, len; simpl; lia.
Qed.

(** The part of a counted group in the estimate of one connection. *)
Lemma counted_group_part g tc conn t cfg n d :
  tc !! t = Some cfg -> count_rows conn t = inr n -> 0 < n ->
  outcome (process_table format_2f tc conn t) = inr d ->
  exists d',
    outcome (process_table format_2f (<[t := without_counted g cfg]> tc) conn t)
    = inr d'
    /\ estimated_size_bytes d - estimated_size_bytes d'
       = len (declared (counted_fields g cfg)) * group_width g * n.
Proof.
  intros Hcfg Hcount Hn Hd.
  assert (n <> 0) as Hn0 by lia.
  rewrite (process_table_configured tc conn t cfg n Hcfg Hcount Hn0) in Hd.
  rewrite (process_table_configured _ conn t (without_counted g cfg) n
             (lookup_insert_eq _ _ _) Hcount Hn0).
  rewrite queried_blocks_without_counted.
  destruct (outcome (queried_blocks format_2f conn t cfg
                       (0, format_commas n ++ " rows"))) as [e|st];
    [discriminate|].
  injection Hd as <-. eexists. split; [reflexivity|]. simpl.
  rewrite !declared_blocks_size.
  rewrite (declared_size_without_counted g cfg n). lia.
Qed.

(** C9.  On any two connections that count the same N > 0 rows for a
    configured table, whatever their live columns, each of the float, int,
    bigint, boolean and datetime groups adds the same amount to the
    estimate: the number of names it declares times its width times N. *)
Theorem counted_group_contribution g tc conn1 conn2 t cfg n d1 d2 :
  tc !! t = Some cfg -> 0 < n ->
  count_rows conn1 t = inr n -> count_rows conn2 t = inr n ->
  outcome (process_table format_2f tc conn1 t) = inr d1 ->
  outcome (process_table format_2f tc conn2 t) = inr d2 ->
  exists d1' d2',
    outcome (process_table format_2f (<[t := without_counted g cfg]> tc) conn1 t)
    = inr d1'
    /\ outcome (process_table format_2f (<[t := without_counted g cfg]> tc) conn2 t)
       = inr d2'
    /\ estimated_size_bytes d1 - estimated_size_bytes d1'
       = len (declared (counted_fields g cfg)) * group_width g * n
    /\ estimated_size_bytes d2 - estimated_size_bytes d2'
       = len (declared (counted_fields g cfg)) * group_width g * n.
Proof.
  intros Hcfg Hn Hc1 Hc2 Hd1 Hd2.
  destruct (counted_group_part g tc conn1 t cfg n d1 Hcfg Hc1 Hn Hd1)
    as (d1' & H1 & E1).
  destruct (counted_group_part g tc conn2 t cfg n d2 Hcfg Hc2 Hn Hd2)
    as (d2' & H2 & E2).
  exists d1', d2'. auto.
Qed.

(** ** Changing one queried group of a schema entry *)

Lemma outcome_bind_ext {A B} (m m' : run A) (k k' : A -> run B) :
  outcome m = outcome m' ->
  (forall a, outcome (k a) = outcome (k' a)) ->
  outcome (m ≫= k) = outcome (m' ≫= k').
Proof.
  intros Hm Hk. destruct (outcome m) as [e|a] eqn:Hom.
  - rewrite (outcome_bind_inl _ _ e Hom).
    symmetry. apply outcome_bind_inl. congruence.
  - rewrite (outcome_bind_inr _ _ a Hom).
    rewrite (outcome_bind_inr m' _ a) by congruence. apply Hk.
Qed.

Lemma queried_blocks_with_queried g v conn t cfg st :
  (forall st', outcome (group_block format_2f g conn t (with_queried g v cfg) st')
               = outcome (group_block format_2f g conn t cfg st')) ->
  outcome (queried_blocks format_2f conn t (with_queried g v cfg) st)
  = outcome (queried_blocks format_2f conn t cfg st).
Proof.
  intros Hg. unfold queried_blocks.
  destruct g; simpl in Hg.
  - apply outcome_bind_ext; [apply Hg|reflexivity].
  - apply outcome_bind_ext; [reflexivity|]. intros st1.
    apply outcome_bind_ext; [apply Hg|reflexivity].
  - apply outcome_bind_ext; [reflexivity|]. intros st1.
    apply outcome_bind_ext; [reflexivity|]. intros st2. apply Hg.
Qed.

Lemma declared_blocks_with_queried g v cfg n st :
  declared_blocks format_2f (with_queried g v cfg) n st
  = declared_blocks format_2f cfg n st.
Proof. reflexivity. Qed.

Lemma process_table_with_queried g v tc conn t cfg n :
  tc !! t = Some cfg -> count_rows conn t = inr n -> n <> 0 ->
  (forall st', outcome (group_block format_2f g conn t (with_queried g v cfg) st')
               = outcome (group_block format_2f g conn t cfg st')) ->
  outcome (process_table format_2f (<[t := with_queried g v cfg]> tc) conn t)
  = outcome (process_table format_2f tc conn t).
Proof.
  intros Hcfg Hcount Hn Hg.
  rewrite (process_table_configured tc conn t cfg n Hcfg Hcount Hn).
  rewrite (process_table_configured _ conn t (with_queried g v cfg) n
             (lookup_insert_eq _ _ _) Hcount Hn).
  rewrite (queried_blocks_with_queried g v conn t cfg _ Hg).
  reflexivity.
Qed.

(** A field-by-field group all of whose aggregates are [NULL] leaves the
    running pair as it found it. *)
Lemma per_field_loop_null kind size_query answer t cols fields st :
  (forall f, f ∈ valid_fields cols fields -> answer f = inr None) ->
  outcome (per_field_loop format_2f kind size_query answer t (inr cols) fields st)
  = inr st.
Proof.
  induction fields as [|f fields IH]; intros Hnull; [reflexivity|].
  cbn [per_field_loop].
  rewrite (outcome_bind_inr _ _ cols) by reflexivity.
  rewrite valid_fields_cons in Hnull.
  destruct (has_column f cols).
  - rewrite (Hnull f) by apply list_elem_of_here.
    rewrite (outcome_bind_inr _ _ None) by reflexivity.
    apply IH. intros f' Hf'. apply Hnull. apply list_elem_of_further, Hf'.
  - rewrite (outcome_bind_inr _ _ tt) by reflexivity. apply IH, Hnull.
Qed.

(** C10.  For a configured table with N > 0 rows: when the aggregate
    query of the string group returns NULL, and likewise when the
    aggregate query of every valid field of the JSON group returns NULL,
    the table is recorded exactly as if the schema entry did not declare
    the group: same estimate, same notes, and no error that the run
    without the group would not have. *)
Theorem null_aggregate_adds_nothing tc conn t cfg cols n :
  tc !! t = Some cfg -> count_rows conn t = inr n -> 0 < n ->
  table_info conn t = inr cols ->
  (forall fields,
     string_fields cfg = Some fields ->
     sum_lengths conn t (valid_fields cols fields) = inr None ->
     outcome (process_table format_2f tc conn t)
     = outcome (process_table format_2f
                  (<[t := with_queried StringFields None cfg]> tc) conn t))
  /\ (forall fields,
        json_fields cfg = Some fields ->
        (forall f, f ∈ valid_fields cols fields ->
                   sum_length_text conn t f = inr None) ->
        outcome (process_table format_2f tc conn t)
        = outcome (process_table format_2f
                     (<[t := with_queried JsonFields None cfg]> tc) conn t)).
Proof.
  intros Hcfg Hcount Hn Hcols.
  assert (n <> 0) as Hn0 by lia.
  split; intros fields Hfields Hnull; symmetry;
    apply (process_table_with_queried _ None tc conn t cfg n Hcfg Hcount Hn0);
    intros st'; simpl.
  - unfold string_fields_block. rewrite Hfields, Hcols.
    rewrite (outcome_bind_inr _ _ cols) by reflexivity.
    rewrite (outcome_bind_inr _ _ _ (valid_str_fields_outcome t cols fields)).
    destruct (valid_fields cols fields) as [|v valid]; [reflexivity|].
    rewrite Hnull. reflexivity.
  - unfold json_fields_block. rewrite Hfields, Hcols.
    symmetry. apply per_field_loop_null, Hnull.
Qed.

(** ** A declared field that is not a live column *)

Lemma log_bind_l {A B} (m : run A) (k : A -> run B) (ev : event) :
  ev ∈ log_of m -> ev ∈ log_of (m ≫= k).
Proof.
  destruct m as [l [e|a]]; simpl; intros Hev; [exact Hev|].
  unfold mbind, run_bind. destruct (k a) as [l' r]. simpl.
  apply elem_of_app. left. exact Hev.
Qed.

Lemma log_bind_r {A B} (m : run A) (k : A -> run B) (a : A) (ev : event) :
  outcome m = inr a -> ev ∈ log_of (k a) -> ev ∈ log_of (m ≫= k).
Proof.
  intros Hm Hev. rewrite (log_bind_inr _ _ a Hm).
  apply elem_of_app. right. exact Hev.
Qed.

Lemma without_field_cons (fld f : string) (fields : list string) :
  without_field fld (f :: fields)
  = if String.eqb f fld then without_field fld fields
    else f :: without_field fld fields.
Proof. unfold without_field. simpl. destruct (String.eqb f fld); reflexivity. Qed.

Lemma valid_fields_without_field cols fld fields :
  has_column fld cols = false ->
  valid_fields cols (without_field fld fields) = valid_fields cols fields.
Proof.
  intros Hcol. induction fields as [|f fields IH]; [reflexivity|].
  rewrite without_field_cons, valid_fields_cons.
  destruct (String.eqb_spec f fld) as [->|Hne].
  - rewrite Hcol. exact IH.
  - rewrite valid_fields_cons. rewrite IH. reflexivity.
Qed.

Lemma per_field_loop_without_field kind size_query answer t cols fld fields st :
  has_column fld cols = false ->
  outcome (per_field_loop format_2f kind size_query answer t (inr cols)
             (without_field fld fields) st)
  = outcome (per_field_loop format_2f kind size_query answer t (inr cols)
               fields st).
Proof.
  intros Hcol. revert st. induction fields as [|f fields IH]; intros st;
    [reflexivity|].
  rewrite without_field_cons.
  destruct (String.eqb_spec f fld) as [->|Hne].
  - rewrite IH. cbn [per_field_loop].
    rewrite (outcome_bind_inr _ _ cols) by reflexivity. rewrite Hcol.
    rewrite (outcome_bind_inr _ _ tt) by reflexivity. reflexivity.
  - cbn [per_field_loop].
    apply outcome_bind_ext; [reflexivity|]. intros columns_info.
    destruct (has_column f columns_info).
    + apply outcome_bind_ext; [reflexivity|]. intros [n|]; apply IH.
    + apply outcome_bind_ext; [reflexivity|]. intros _. apply IH.
Qed.

Lemma per_field_loop_log kind size_query answer t cols fld fields st st' :
  has_column fld cols = false -> fld ∈ fields ->
  outcome (per_field_loop format_2f kind size_query answer t (inr cols)
             fields st) = inr st' ->
  Execute (table_info_query t)
    ∈ log_of (per_field_loop format_2f kind size_query answer t (inr cols)
                fields st)
  /\ Stderr (missing_field_warning kind fld t)
       ∈ log_of (per_field_loop format_2f kind size_query answer t (inr cols)
                   fields st).
Proof.
  intros Hcol. revert st.
  induction fields as [|f fields IH]; intros st Hin Hout.
  - apply elem_of_nil in Hin. contradiction.
  - cbn [per_field_loop] in *. split.
    + apply log_bind_l. apply list_elem_of_here.
    + apply (log_bind_r _ _ cols); [reflexivity|].
      rewrite (outcome_bind_inr _ _ cols) in Hout by reflexivity.
      apply elem_of_cons in Hin as [->|Hin].
      * rewrite Hcol. apply log_bind_l. apply list_elem_of_here.
      * destruct (has_column f cols).
        -- apply bind_inr_inv in Hout as (r & Hr & Hout).
           apply (log_bind_r _ _ r _ Hr).
           destruct r as [n|]; eapply IH; eassumption.
        -- apply bind_inr_inv in Hout as ([] & Hr & Hout).
           apply (log_bind_r _ _ tt _ Hr). eapply IH; eassumption.
Qed.

Lemma valid_str_fields_log t cols fld fields :
  has_column fld cols = false -> fld ∈ fields ->
  Stderr (missing_field_warning "String" fld t)
    ∈ log_of (valid_str_fields t cols fields).
Proof.
  intros Hcol. induction fields as [|f fields IH]; intros Hin.
  - apply elem_of_nil in Hin. contradiction.
  - cbn [valid_str_fields].
    apply elem_of_cons in Hin as [->|Hin].
    + rewrite Hcol. apply log_bind_l. apply list_elem_of_here.
    + destruct (has_column f cols).
      * apply log_bind_l. apply IH, Hin.
      * apply (log_bind_r _ _ tt); [reflexivity|]. apply IH, Hin.
Qed.

Lemma group_block_without_field g conn t cfg cols fld fields st :
  table_info conn t = inr cols -> queried_fields g cfg = Some fields ->
  has_column fld cols = false ->
  outcome (group_block format_2f g conn t
             (with_queried g (Some (without_field fld fields)) cfg) st)
  = outcome (group_block format_2f g conn t cfg st).
Proof.
  intros Hcols Hfields Hcol. destruct g; simpl in *.
  - unfold bytes_fields_block. cbn [bytes_fields with_queried].
    rewrite Hfields, Hcols. apply per_field_loop_without_field, Hcol.
  - unfold json_fields_block. cbn [json_fields with_queried].
    rewrite Hfields, Hcols. apply per_field_loop_without_field, Hcol.
  - unfold string_fields_block. cbn [string_fields with_queried].
    rewrite Hfields, Hcols.
    rewrite (outcome_bind_inr _ _ cols) by reflexivity.
    rewrite (outcome_bind_inr _ _ _
               (valid_str_fields_outcome t cols (without_field fld fields))).
    rewrite (outcome_bind_inr (execute _ _) _ cols) by reflexivity.
    rewrite (outcome_bind_inr _ _ _ (valid_str_fields_outcome t cols fields)).
    rewrite (valid_fields_without_field cols fld fields Hcol). reflexivity.
Qed.

Lemma group_block_log g conn t cfg cols fld fields st st' :
  table_info conn t = inr cols -> queried_fields g cfg = Some fields ->
  has_column fld cols = false -> fld ∈ fields ->
  outcome (group_block format_2f g conn t cfg st) = inr st' ->
  Execute (table_info_query t) ∈ log_of (group_block format_2f g conn t cfg st)
  /\ Stderr (missing_field_warning (group_kind g) fld t)
       ∈ log_of (group_block format_2f g conn t cfg st).
Proof.
  intros Hcols Hfields Hcol Hin. destruct g; simpl in *.
  - unfold bytes_fields_block. rewrite Hfields, Hcols.
    apply per_field_loop_log; assumption.
  - unfold json_fields_block. rewrite Hfields, Hcols.
    apply per_field_loop_log; assumption.
  - unfold string_fields_block. rewrite Hfields, Hcols. intros _. split.
    + apply log_bind_l. apply list_elem_of_here.
    + apply (log_bind_r _ _ cols); [reflexivity|].
      apply log_bind_l. apply valid_str_fields_log; assumption.
Qed.

Lemma queried_blocks_log g conn t cfg st st' ev :
  outcome (queried_blocks format_2f conn t cfg st) = inr st' ->
  (forall st0 st1, outcome (group_block format_2f g conn t cfg st0) = inr st1 ->
                   ev ∈ log_of (group_block format_2f g conn t cfg st0)) ->
  ev ∈ log_of (queried_blocks format_2f conn t cfg st).
Proof.
  unfold queried_blocks. intros Hout Hg.
  apply bind_inr_inv in Hout as (s1 & H1 & Hout).
  apply bind_inr_inv in Hout as (s2 & H2 & H3).
  destruct g; simpl in Hg.
  - apply log_bind_l. eapply Hg, H1.
  - apply (log_bind_r _ _ s1 _ H1). apply log_bind_l. eapply Hg, H2.
  - apply (log_bind_r _ _ s1 _ H1). apply (log_bind_r _ _ s2 _ H2).
    eapply Hg, H3.
Qed.

Lemma process_table_log tc conn t cfg n ev :
  tc !! t = Some cfg -> count_rows conn t = inr n -> n <> 0 ->
  ev ∈ log_of (queried_blocks format_2f conn t cfg
                 (0, format_commas n ++ " rows")) ->
  ev ∈ log_of (process_table format_2f tc conn t).
Proof.
  intros Hcfg Hcount Hn Hev. unfold process_table. rewrite Hcount.
  apply (log_bind_r _ _ n); [reflexivity|].
  apply Z.eqb_neq in Hn. rewrite Hn, Hcfg.
  apply log_bind_l, Hev.
Qed.

(** C5, amended.  For a configured table with N > 0 rows and a field
    declared in the bytes, JSON or string group that is not a live column:
    whenever the estimation of the table succeeds for the schema entry
    without that name, it succeeds for the entry as declared and records
    the same row, having read the live columns with [PRAGMA table_info]
    and having warned on stderr that the field is skipped. *)
Theorem missing_field_skipped g tc conn t cfg fields fld cols n d :
  tc !! t = Some cfg -> count_rows conn t = inr n -> 0 < n ->
  table_info conn t = inr cols ->
  queried_fields g cfg = Some fields -> fld ∈ fields -> fld ∉ cols ->
  outcome (process_table format_2f
             (<[t := with_queried g (Some (without_field fld fields)) cfg]> tc)
             conn t) = inr d ->
  outcome (process_table format_2f tc conn t) = inr d
  /\ Execute (table_info_query t) ∈ log_of (process_table format_2f tc conn t)
  /\ Stderr (missing_field_warning (group_kind g) fld t)
       ∈ log_of (process_table format_2f tc conn t).
Proof.
  intros Hcfg Hcount Hn Hcols Hfields Hin Hmissing Hd.
  assert (n <> 0) as Hn0 by lia.
  assert (has_column fld cols = false) as Hcol
    by (apply bool_decide_eq_false_2, Hmissing).
  assert (outcome (process_table format_2f tc conn t) = inr d) as Hout.
  { rewrite <- Hd. symmetry.
    apply (process_table_with_queried g _ tc conn t cfg n Hcfg Hcount Hn0).
    intros st'. eapply group_block_without_field; eassumption. }
  split; [exact Hout|].
  rewrite (process_table_configured tc conn t cfg n Hcfg Hcount Hn0) in Hout.
  destruct (outcome (queried_blocks format_2f conn t cfg
                       (0, format_commas n ++ " rows"))) as [e|st] eqn:Hq;
    [discriminate|].
  split; apply (process_table_log tc conn t cfg n _ Hcfg Hcount Hn0);
    apply (queried_blocks_log g conn t cfg _ st _ Hq); intros st0 st1 H01;
    eapply group_block_log; eassumption.
Qed.

(** ** The primary estimator *)

Lemma analyze_with_dbstat_outcome conn :
  outcome (analyze_with_dbstat conn)
  = inr match dbstat_answer conn with
        | inr (r :: rows) => Some (r :: rows)
        | _ => None
        end.
Proof.
  unfold analyze_with_dbstat.
  destruct (dbstat_answer conn) as [[msg|msg]|[|r rows]]; try reflexivity.
  unfold try_except, execute, mbind, run_bind, outcome. simpl.
  destruct (contains "no such table: dbstat" msg); reflexivity.
Qed.

Lemma analyze_with_dbstat_log conn ev :
  ev ∈ log_of (analyze_with_dbstat conn) ->
  ev = Execute DBSTAT_QUERY \/ exists line, ev = Stderr line.
Proof.
  unfold analyze_with_dbstat.
  destruct (dbstat_answer conn) as [[msg|msg]|[|r rows]];
    unfold try_except, execute, mbind, run_bind, log_of; simpl.
  - destruct (contains "no such table: dbstat" msg); simpl;
      rewrite ?elem_of_cons, ?elem_of_nil; intros H; [tauto|].
    destruct H as [->|[->|[]]]; eauto.
  - rewrite ?elem_of_cons, ?elem_of_nil. intros [->|[->|[]]]; eauto.
  - rewrite ?elem_of_cons, ?elem_of_nil. tauto.
  - rewrite ?elem_of_cons, ?elem_of_nil. tauto.
Qed.

Lemma fallback_log_head tc conn :
  Execute TABLES_QUERY ∈ log_of (estimate_table_sizes_fallback format_2f tc conn).
Proof.
  unfold estimate_table_sizes_fallback. apply log_bind_l, list_elem_of_here.
Qed.

Lemma analysis_invokes_fallback tc conn :
  fallback_invoked (log_of (analysis format_2f tc conn))
  <-> outcome (analyze_with_dbstat conn) = inr None.
Proof.
  unfold fallback_invoked, analysis.
  pose proof (analyze_with_dbstat_outcome conn) as Hout.
  pose proof (analyze_with_dbstat_log conn (Execute TABLES_QUERY)) as Hlog.
  set (result := match dbstat_answer conn with
                 | inr (r :: rows) => Some (r :: rows)
                 | _ => None
                 end) in *.
  rewrite (log_bind_inr _ _ result Hout), elem_of_app, Hout.
  split.
  - intros [Hin|Hin].
    + destruct (Hlog Hin) as [Heq|[line Heq]]; discriminate Heq.
    + destruct result as [rows|]; [|reflexivity].
      simpl in Hin. apply elem_of_nil in Hin. contradiction.
  - intros Hnone. right. injection Hnone as ->.
    apply log_bind_l, fallback_log_head.
Qed.

Lemma main_log tc env conn :
  exists_db env = true -> connect env = inr conn ->
  fallback_invoked (main format_2f tc env).1
  <-> fallback_invoked (log_of (analysis format_2f tc conn)).
Proof.
  intros Hexists Hconn. unfold main, fallback_invoked. rewrite Hexists, Hconn.
  simpl. unfold log_of.
  destruct (analysis format_2f tc conn) as [l [e|[]]]; simpl;
    destruct (getsize env) as [err|size]; simpl;
    rewrite ?elem_of_cons, ?elem_of_app, ?elem_of_cons, ?elem_of_nil;
    split; intros H; try tauto;
    repeat match goal with
           | H : _ \/ _ |- _ => destruct H
           | H : False |- _ => destruct H
           end; try discriminate; tauto.
Qed.

(** C4.  The primary estimator never raises: it returns [None] when using
    [dbstat] raises (the build has no such table, or any other error), when
    reading the catalog raises, and when the query answers no rows.  In
    [main], the fallback estimator runs exactly when the primary estimator
    returned [None]. *)
Theorem dbstat_failure_falls_back conn :
  (exists r, outcome (analyze_with_dbstat conn) = inr r)
  /\ (forall e, dbstat conn = inl e ->
                outcome (analyze_with_dbstat conn) = inr None)
  /\ (forall e, sqlite_master conn = inl e ->
                outcome (analyze_with_dbstat conn) = inr None)
  /\ (dbstat_answer conn = inr [] ->
      outcome (analyze_with_dbstat conn) = inr None)
  /\ (forall tc env,
        exists_db env = true -> connect env = inr conn ->
        (fallback_invoked (main format_2f tc env).1
         <-> outcome (analyze_with_dbstat conn) = inr None)).
Proof.
  pose proof (analyze_with_dbstat_outcome conn) as Hout.
  split; [eexists; exact Hout|].
  split; [|split; [|split]].
  - intros e He. rewrite Hout. unfold dbstat_answer. rewrite He.
    destruct (sqlite_master conn); reflexivity.
  - intros e He. rewrite Hout. unfold dbstat_answer. rewrite He. reflexivity.
  - intros Hempty. rewrite Hout, Hempty. reflexivity.
  - intros tc env Hexists Hconn.
    rewrite (main_log tc env conn Hexists Hconn).
    apply analysis_invokes_fallback.
Qed.

Lemma prefix_sqlite_like (n : string) :
  String.prefix "sqlite_" n = true -> like_sqlite n = true.
Proof.
  intros H.
  do 7 (destruct n as [|? n]; [discriminate H|];
        cbn [String.prefix] in H;
        match type of H with
        | context [ascii_dec ?a ?b] =>
            destruct (ascii_dec a b) as [<-|]; [|discriminate H]
        end).
  reflexivity.
Qed.




End Estimators_facts.

(** ** The statements on the example databases *)

Lemma demo_run :
  outcome (estimate_table_sizes_fallback two_decimals demo_schema demo_conn)
  = inr demo_result.
Proof. vm_compute. reflexivity. Qed.

(** The rows of [demo_result] in the order of C2: a known estimate before
    the sentinel. *)
Lemma fallback_ordering_witness :
  exists x y,
    demo_result !! 2%nat = Some x /\ demo_result !! 3%nat = Some y
    /\ (estimated_size_bytes x <> -1 -> estimated_size_bytes y <> -1 ->
        estimated_size_bytes y <= estimated_size_bytes x)
    /\ (estimated_size_bytes x = -1 -> estimated_size_bytes y = -1)
    /\ (estimated_size_bytes x = -1 -> estimated_size_bytes y = -1 ->
        row_count y <= row_count x).
Proof.
  eexists _, _. split; [reflexivity|]. split; [reflexivity|].
  apply (fallback_ordering two_decimals demo_schema demo_conn demo_result 2 3);
    [exact demo_run | lia | reflexivity | reflexivity].
Defined.

Lemma empty_table_recorded_witness :
  table_step two_decimals demo_schema demo_conn "Empty"
  = ([Execute (count_query "Empty")], inr (Detail "Empty" 0 0 "Empty table"))
  /\ forall tables,
       tables_answer demo_conn = inr tables -> "Empty" ∈ tables ->
       exists l,
         outcome (estimate_table_sizes_fallback two_decimals demo_schema demo_conn)
         = inr l
         /\ Detail "Empty" 0 0 "Empty table" ∈ l.
Proof.
  apply (empty_table_recorded two_decimals demo_schema demo_conn "Empty").
  reflexivity.
Defined.


Lemma unconfigured_table_recorded_witness :
  table_step two_decimals demo_schema demo_conn "Audit"
  = ([Execute (count_query "Audit")],
     inr (Detail "Audit" 1234 (-1)
            "1,234 rows (size not specifically estimated)"))
  /\ forall tables,
       tables_answer demo_conn = inr tables -> "Audit" ∈ tables ->
       exists l,
         outcome (estimate_table_sizes_fallback two_decimals demo_schema demo_conn)
         = inr l
         /\ Detail "Audit" 1234 (-1)
              "1,234 rows (size not specifically estimated)" ∈ l.
Proof.
  apply (unconfigured_table_recorded two_decimals demo_schema demo_conn "Audit" 1234);
    [reflexivity | reflexivity | lia].
Defined.

(** [Wallet] on [demo_conn]: 90 bytes of strings, nothing for the [NULL]
    JSON aggregate, and 16 + 16 + 2 bytes for the counted groups; then the
    two instances of the specification. *)
Lemma specified_table_estimate_witness :
  (exists notes,
     outcome (process_table two_decimals demo_schema demo_conn "Wallet")
     = inr (Detail "Wallet" 2 124 notes))
  /\ (exists notes,
        outcome (process_table two_decimals
                   {[ "Ledger" := ints_only ["a"; "b"; "c"] ]} demo_conn "Ledger")
        = inr (Detail "Ledger" 7 (3 * 4 * 7) notes))
  /\ (exists notes,
        outcome (process_table two_decimals
                   {[ "Wallet" := ints_and_booleans ["a"; "b"] ["c"] ]}
                   demo_conn "Wallet")
        = inr (Detail "Wallet" 2 18 notes)).
Proof.
  split; [|split].
  - apply (specified_table_estimate two_decimals demo_schema demo_conn
             "Wallet" wallet_cfg 2);
      [reflexivity | reflexivity | lia | reflexivity | reflexivity].
  - apply (specified_table_estimate two_decimals
             {[ "Ledger" := ints_only ["a"; "b"; "c"] ]} demo_conn
             "Ledger" (ints_only ["a"; "b"; "c"]) 7);
      [reflexivity | reflexivity | lia | reflexivity | reflexivity].
  - destruct (specified_table_estimate two_decimals
                {[ "Wallet" := ints_and_booleans ["a"; "b"] ["c"] ]} demo_conn
                "Wallet" (ints_and_booleans ["a"; "b"] ["c"]) 2)
      as (_ & _ & Hpair); [reflexivity | reflexivity | lia | reflexivity |].
    apply (Hpair "a" "b" "c"); reflexivity.
Defined.

(** [Blob] on [blob_conn]: the 5 bytes of its one bytes field, which the
    sum of the specification does not have; and [Wallet] on [demo_conn],
    whose entry declares no bytes field. *)
Lemma configured_table_estimate_witness :
  (exists notes,
     outcome (process_table two_decimals {[ "Blob" := blob_cfg ]} blob_conn "Blob")
     = inr (Detail "Blob" 1 5 notes))
  /\ specified_size blob_conn "Blob" blob_cfg 1 = 0
  /\ (exists notes,
        outcome (process_table two_decimals demo_schema demo_conn "Wallet")
        = inr (Detail "Wallet" 2 124 notes)).
Proof.
  split; [|split].
  - apply (configured_table_estimate two_decimals {[ "Blob" := blob_cfg ]}
             blob_conn "Blob" blob_cfg 1);
      [reflexivity | reflexivity | lia | reflexivity].
  - reflexivity.
  - apply (configured_table_estimate two_decimals demo_schema demo_conn
             "Wallet" wallet_cfg 2); [reflexivity | reflexivity | lia | reflexivity].
Defined.

(** [Wallet] on two connections with different live columns: the two
    declared [int] columns add 2 * 4 * 2 bytes on both. *)
Lemma counted_group_contribution_witness :
  exists d1 d2 d1' d2',
    outcome (process_table two_decimals demo_schema demo_conn "Wallet") = inr d1
    /\ outcome (process_table two_decimals demo_schema null_conn "Wallet") = inr d2
    /\ outcome (process_table two_decimals
                  (<["Wallet" := without_counted IntFields wallet_cfg]> demo_schema)
                  demo_conn "Wallet") = inr d1'
    /\ outcome (process_table two_decimals
                  (<["Wallet" := without_counted IntFields wallet_cfg]> demo_schema)
                  null_conn "Wallet") = inr d2'
    /\ estimated_size_bytes d1 - estimated_size_bytes d1' = 16
    /\ estimated_size_bytes d2 - estimated_size_bytes d2' = 16.
Proof.
  destruct (counted_group_contribution two_decimals IntFields demo_schema
              demo_conn null_conn "Wallet" wallet_cfg 2
              (Detail "Wallet" 2 124 wallet_notes)
              (Detail "Wallet" 2 34
                 "2 rows; Float fields (1 fields): 16 B; Int fields (2 fields): 16 B; Boolean fields (1 fields): 2 B"))
    as (d1' & d2' & H1 & H2 & E1 & E2);
    [reflexivity | lia | reflexivity | reflexivity
     | vm_compute; reflexivity | vm_compute; reflexivity |].
  eexists _, _, d1', d2'.
  split; [vm_compute; reflexivity|]. split; [vm_compute; reflexivity|].
  split; [exact H1|]. split; [exact H2|]. split; [exact E1 | exact E2].
Defined.

(** [Wallet] on [null_conn]: the string aggregate and every JSON aggregate
    is [NULL]. *)
Lemma null_aggregate_adds_nothing_witness :
  outcome (process_table two_decimals demo_schema null_conn "Wallet")
  = outcome (process_table two_decimals
               (<["Wallet" := with_queried StringFields None wallet_cfg]> demo_schema)
               null_conn "Wallet")
  /\ outcome (process_table two_decimals demo_schema null_conn "Wallet")
     = outcome (process_table two_decimals
                  (<["Wallet" := with_queried JsonFields None wallet_cfg]> demo_schema)
                  null_conn "Wallet").
Proof.
  destruct (null_aggregate_adds_nothing two_decimals demo_schema null_conn
              "Wallet" wallet_cfg ["address"] 2)
    as [Hstring Hjson]; [reflexivity | reflexivity | lia | reflexivity |].
  split.
  - apply (Hstring ["address"; "label"; "nickname"]); reflexivity.
  - apply (Hjson ["tags"; "legacy"]); [reflexivity|]. intros f _. reflexivity.
Defined.

(** [Wallet] on [demo_conn]: the JSON field [legacy] is declared and is
    not a live column. *)
Lemma missing_field_skipped_witness :
  outcome (process_table two_decimals demo_schema demo_conn "Wallet")
  = inr (Detail "Wallet" 2 124 wallet_notes)
  /\ Execute (table_info_query "Wallet")
       ∈ log_of (process_table two_decimals demo_schema demo_conn "Wallet")
  /\ Stderr (missing_field_warning "JSON" "legacy" "Wallet")
       ∈ log_of (process_table two_decimals demo_schema demo_conn "Wallet").
Proof.
  apply (missing_field_skipped two_decimals JsonFields demo_schema demo_conn
           "Wallet" wallet_cfg ["tags"; "legacy"] "legacy"
           ["address"; "label"; "tags"; "a"; "b"; "c"] 2).
  - reflexivity.
  - reflexivity.
  - lia.
  - reflexivity.
  - reflexivity.
  - repeat constructor.
  - intros Hin.
    repeat (apply elem_of_cons in Hin as [Hin|Hin]; [discriminate Hin|]).
    apply elem_of_nil in Hin. exact Hin.
  - vm_compute. reflexivity.
Defined.

(** A declared [int] column that is not a live column: the table is
    estimated after the count query alone, with no warning, and the column
    is counted with 4 bytes for each of the 2 rows. *)
Lemma counted_field_not_validated_counterexample :
  table_info drift_conn "Drift" = inr ["id"]
  /\ count_rows drift_conn "Drift" = inr 2
  /\ int_fields (ints_only ["ghost"]) = Some ["ghost"]
  /\ process_table two_decimals {[ "Drift" := ints_only ["ghost"] ]}
       drift_conn "Drift"
     = ([Execute (count_query "Drift")],
        inr (Detail "Drift" 2 8 "2 rows; Int fields (1 fields): 8 B")).
Proof. repeat split; vm_compute; reflexivity. Qed.

(** A build without [dbstat]: the primary estimator returns [None] and
    [main] runs the fallback; with [dbstat] it does not. *)
Lemma dbstat_failure_falls_back_witness :
  outcome (analyze_with_dbstat demo_conn) = inr None
  /\ fallback_invoked (main two_decimals demo_schema (demo_env demo_conn)).1
  /\ ~ fallback_invoked (main two_decimals demo_schema (demo_env stat_conn)).1.
Proof.
  destruct (dbstat_failure_falls_back two_decimals demo_conn)
    as (_ & Hraise & _ & _ & Hmain).
  destruct (dbstat_failure_falls_back two_decimals stat_conn)
    as (_ & _ & _ & _ & Hmain').
  pose proof (Hraise (OperationalError "no such table: dbstat") eq_refl) as Hnone.
  split; [exact Hnone|]. split.
  - apply (Hmain demo_schema (demo_env demo_conn) eq_refl eq_refl), Hnone.
  - intros Hinvoked.
    apply (Hmain' demo_schema (demo_env stat_conn) eq_refl eq_refl) in Hinvoked.
    discriminate Hinvoked.
Defined.


(** * Further properties of the script *)

Section More_facts.

Variable format_2f : Z -> Z -> string.

(** ** What a run can log *)

Lemma Forall_log_bind {A B} (P : event -> Prop) (m : run A) (k : A -> run B) :
  Forall P (log_of m) -> (forall a, Forall P (log_of (k a))) ->
  Forall P (log_of (m ≫= k)).
Proof.
  destruct m as [l [e|a]]; simpl; intros Hm Hk; [exact Hm|].
  unfold mbind, run_bind. specialize (Hk a). destruct (k a) as [l' r].
  simpl in *. apply Forall_app_2; assumption.
Qed.

Lemma Forall_log_try_except {A} (P : event -> Prop) (m : run A)
    (h : exn -> run A) :
  Forall P (log_of m) -> (forall e, Forall P (log_of (h e))) ->
  Forall P (log_of (try_except m h)).
Proof.
  destruct m as [l [e|a]]; simpl; intros Hm Hh; [|exact Hm].
  specialize (Hh e). destruct (h e) as [l' r].
  simpl in *. apply Forall_app_2; assumption.
Qed.

Lemma Forall_log_execute {A} (P : event -> Prop) sql (answer : exn + A) :
  P (Execute sql) -> Forall P (log_of (execute sql answer)).
Proof. intros H. repeat constructor. exact H. Qed.

Lemma Forall_log_eprint (P : event -> Prop) line :
  P (Stderr line) -> Forall P (log_of (eprint line)).
Proof. intros H. repeat constructor. exact H. Qed.

Lemma Forall_log_ret {A} (P : event -> Prop) (a : A) :
  Forall P (log_of (mret a)).
Proof. constructor. Qed.

Create HintDb script_log.

#[local] Hint Constructors script_event : script_log.
#[local] Hint Resolve Forall_log_bind Forall_log_try_except Forall_log_execute
  Forall_log_eprint Forall_log_ret : script_log.

Lemma per_field_loop_events kind size_query answer t columns fields st :
  (forall f, script_event (Execute (size_query f))) ->
  Forall script_event
    (log_of (per_field_loop format_2f kind size_query answer t columns fields st)).
Proof.
  intros Hq. revert st.
  induction fields as [|f fields IH]; intros st; cbn [per_field_loop];
    [apply Forall_log_ret|].
  apply Forall_log_bind; [auto with script_log|]. intros cols.
  destruct (has_column f cols); apply Forall_log_bind; auto with script_log.
  intros [n|]; apply IH.
Qed.

Lemma valid_str_fields_events t cols fields :
  Forall script_event (log_of (valid_str_fields t cols fields)).
Proof.
  induction fields as [|f fields IH]; cbn [valid_str_fields];
    [apply Forall_log_ret|].
  destruct (has_column f cols); apply Forall_log_bind; auto with script_log.
Qed.

Lemma queried_blocks_events conn t cfg st :
  Forall script_event (log_of (queried_blocks format_2f conn t cfg st)).
Proof.
  unfold queried_blocks.
  apply Forall_log_bind; [|intros st1; apply Forall_log_bind; [|intros st2]].
  - unfold bytes_fields_block. destruct (bytes_fields cfg);
      [apply per_field_loop_events|]; auto with script_log.
  - unfold json_fields_block. destruct (json_fields cfg);
      [apply per_field_loop_events|]; auto with script_log.
  - unfold string_fields_block. destruct (string_fields cfg);
      [|auto with script_log].
    apply Forall_log_bind; [auto with script_log|]. intros cols.
    apply Forall_log_bind; [apply valid_str_fields_events|].
    intros [|v valid]; [auto with script_log|].
    apply Forall_log_bind; [auto with script_log|].
    intros [n|]; auto with script_log.
Qed.

Lemma process_table_events tc conn t :
  Forall script_event (log_of (process_table format_2f tc conn t)).
Proof.
  unfold process_table. apply Forall_log_bind; [auto with script_log|].
  intros n. destruct (n =? 0); [auto with script_log|].
  destruct (tc !! t) as [cfg|]; [|auto with script_log].
  apply Forall_log_bind; [apply queried_blocks_events|].
  intros st. apply Forall_log_ret.
Qed.

Lemma table_step_events tc conn t :
  Forall script_event (log_of (table_step format_2f tc conn t)).
Proof.
  unfold table_step. apply Forall_log_try_except;
    [apply process_table_events|].
  intros e. apply Forall_log_bind; auto with script_log.
Qed.

Lemma fallback_events tc conn :
  Forall script_event (log_of (estimate_table_sizes_fallback format_2f tc conn)).
Proof.
  unfold estimate_table_sizes_fallback.
  apply Forall_log_bind; [auto with script_log|]. intros tables.
  apply Forall_log_bind; [|auto with script_log].
  induction tables as [|t tables IH]; cbn [mapM]; [apply Forall_log_ret|].
  apply Forall_log_bind; [apply table_step_events|]. intros d.
  apply Forall_log_bind; [exact IH|]. auto with script_log.
Qed.

Lemma analyze_with_dbstat_events conn :
  Forall script_event (log_of (analyze_with_dbstat conn)).
Proof.
  unfold analyze_with_dbstat. apply Forall_log_try_except.
  - apply Forall_log_bind; [auto with script_log|].
    intros [|r rows]; auto with script_log.
  - intros [msg|msg].
    + destruct (contains "no such table: dbstat" msg); auto with script_log.
    + auto with script_log.
Qed.

Lemma analysis_events tc conn :
  Forall script_event (log_of (analysis format_2f tc conn)).
Proof.
  unfold analysis. apply Forall_log_bind; [apply analyze_with_dbstat_events|].
  intros [rows|]; [auto with script_log|].
  apply Forall_log_bind; [apply fallback_events|]. auto with script_log.
Qed.

Lemma script_event_reads_only sql :
  script_event (Execute sql) -> reads_only sql.
Proof.
  intros H. inversion H; subst; unfold reads_only; eauto.
Qed.

(** The events of [main] once connected: stderr lines around those of the
    analysis, then [Close]. *)
Lemma main_connected_log tc env conn :
  exists_db env = true -> connect env = inr conn ->
  exists before after,
    (main format_2f tc env).1
    = (before ++ log_of (analysis format_2f tc conn) ++ after ++ [Close])%list
    /\ Forall (fun ev => exists line, ev = Stderr line) before
    /\ Forall (fun ev => exists line, ev = Stderr line) after.
Proof.
  intros Hexists Hconn. unfold main. rewrite Hexists, Hconn. simpl.
  exists (match getsize env with
          | inl e => [Stderr ("Error getting file size for " ++ DB_PATH ++ ": " ++ e)]
          | inr _ => []
          end).
  destruct (analysis format_2f tc conn) as [l [e|[]]]; simpl.
  - eexists [_]. split; [reflexivity|].
    split; [destruct (getsize env)|]; repeat constructor; eauto.
  - exists []. split; [reflexivity|].
    split; [destruct (getsize env)|]; repeat constructor; eauto.
Qed.

Lemma main_unconnected_log tc env :
  exists_db env = false \/ (exists e, connect env = inl e) ->
  Forall (fun ev => exists line, ev = Stderr line) (main format_2f tc env).1
  /\ (main format_2f tc env).2 = 1.
Proof.
  unfold main. intros [Hmissing|[e He]].
  - rewrite Hmissing. simpl. split; [|reflexivity]. repeat constructor; eauto.
  - destruct (exists_db env); simpl.
    + rewrite He. simpl. split; [|reflexivity].
      destruct (getsize env); repeat constructor; eauto.
    + split; [|reflexivity]. repeat constructor; eauto.
Qed.

Lemma analysis_outcome tc conn :
  outcome (analysis format_2f tc conn)
  = match sqlite_master conn with
    | inl e => inl e
    | inr _ => inr tt
    end.
Proof.
  unfold analysis.
  rewrite (outcome_bind_inr _ _ _ (analyze_with_dbstat_outcome conn)).
  assert (forall master, sqlite_master conn = inr master ->
            outcome (estimate_table_sizes_fallback format_2f tc conn ≫=
                       fun _ => mret tt) = inr tt) as Hfallback.
  { intros master Hm.
    erewrite outcome_bind_inr; [reflexivity|].
    apply fallback_outcome. unfold tables_answer. rewrite Hm. reflexivity. }
  unfold dbstat_answer.
  destruct (sqlite_master conn) as [e|master] eqn:Hm.
  - apply outcome_bind_inl. unfold estimate_table_sizes_fallback.
    apply outcome_bind_inl. unfold tables_answer. rewrite Hm. reflexivity.
  - destruct (dbstat conn) as [e|stat]; [eapply Hfallback; reflexivity|].
    destruct (sort_desc total_lt (grouped_rows (joined_rows master stat)));
      [eapply Hfallback; reflexivity|reflexivity].
Qed.

(** X1.  [main] exits with status 0 or 1, and with 0 exactly when the
    database file exists, the connection opens and the catalog can be
    read: no failure of [dbstat] and no failure confined to a table makes
    the run fail. *)
Theorem main_exit_status tc env :
  ((main format_2f tc env).2 = 0 \/ (main format_2f tc env).2 = 1)
  /\ ((main format_2f tc env).2 = 0
      <-> exists_db env = true
          /\ exists conn master,
               connect env = inr conn /\ sqlite_master conn = inr master).
Proof.
  destruct (exists_db env) eqn:Hexists.
  - destruct (connect env) as [e|conn] eqn:Hconn.
    + destruct (main_unconnected_log tc env) as [_ H1]; [eauto|].
      rewrite H1. split; [auto|]. split; [discriminate|].
      intros (_ & conn & master & Hc & _). discriminate Hc.
    + pose proof (analysis_outcome tc conn) as Hout.
      unfold main. rewrite Hexists, Hconn. simpl.
      destruct (analysis format_2f tc conn) as [l [e|[]]]; simpl in *.
      * split; [auto|]. split; [discriminate|].
        intros (_ & conn' & master & Hc & Hm). injection Hc as <-.
        rewrite Hm in Hout. discriminate Hout.
      * split; [auto|]. split; [|reflexivity]. intros _. split; [reflexivity|].
        destruct (sqlite_master conn) as [e|master] eqn:Hm;
          [discriminate Hout|].
        exists conn, master. split; [reflexivity|exact Hm].
  - destruct (main_unconnected_log tc env) as [_ H1]; [auto|].
    rewrite H1. split; [auto|]. split; [discriminate|].
    intros (Hex & _). discriminate Hex.
Qed.

(** X2.  When the connection opens, [main] closes it exactly once, as the
    last thing it does, whatever happened in between; when the database
    file is missing or the connection fails, the run consists of stderr
    lines only: nothing is executed and nothing is closed. *)
Theorem main_connection_discipline tc env :
  (forall conn,
     exists_db env = true -> connect env = inr conn ->
     exists l, (main format_2f tc env).1 = (l ++ [Close])%list /\ Close ∉ l)
  /\ (exists_db env = false \/ (exists e, connect env = inl e) ->
      forall ev, ev ∈ (main format_2f tc env).1 -> exists line, ev = Stderr line).
Proof.
  split.
  - intros conn Hexists Hconn.
    destruct (main_connected_log tc env conn Hexists Hconn)
      as (before & after & Hlog & Hbefore & Hafter).
    exists (before ++ log_of (analysis format_2f tc conn) ++ after)%list.
    split; [rewrite Hlog, <- !app_assoc; reflexivity|].
    rewrite !elem_of_app. intros [Hin|[Hin|Hin]].
    + rewrite Forall_forall in Hbefore.
      destruct (Hbefore _ Hin) as [line Heq]. discriminate Heq.
    + pose proof (analysis_events tc conn) as Hev.
      rewrite Forall_forall in Hev. specialize (Hev _ Hin). inversion Hev.
    + rewrite Forall_forall in Hafter.
      destruct (Hafter _ Hin) as [line Heq]. discriminate Heq.
  - intros Hun ev Hin.
    destruct (main_unconnected_log tc env Hun) as [Hlog _].
    rewrite Forall_forall in Hlog. exact (Hlog ev Hin).
Qed.

(** X3.  Every statement a run of [main] executes only reads the
    database: it is the [dbstat] query, begins with [SELECT], or is a
    [PRAGMA table_info]. *)
Theorem main_reads_only tc env sql :
  Execute sql ∈ (main format_2f tc env).1 -> reads_only sql.
Proof.
  intros Hin.
  destruct (exists_db env) eqn:Hexists;
    [destruct (connect env) as [e|conn] eqn:Hconn|].
  - destruct (main_unconnected_log tc env) as [Hlog _]; [eauto|].
    rewrite Forall_forall in Hlog.
    destruct (Hlog _ Hin) as [line Heq]. discriminate Heq.
  - destruct (main_connected_log tc env conn Hexists Hconn)
      as (before & after & Hlog & Hbefore & Hafter).
    rewrite Hlog in Hin. rewrite !elem_of_app in Hin.
    destruct Hin as [Hin|[Hin|[Hin|Hin]]].
    + rewrite Forall_forall in Hbefore.
      destruct (Hbefore _ Hin) as [line Heq]. discriminate Heq.
    + pose proof (analysis_events tc conn) as Hev.
      rewrite Forall_forall in Hev. apply script_event_reads_only, Hev, Hin.
    + rewrite Forall_forall in Hafter.
      destruct (Hafter _ Hin) as [line Heq]. discriminate Heq.
    + apply list_elem_of_singleton in Hin. discriminate Hin.
  - destruct (main_unconnected_log tc env) as [Hlog _]; [auto|].
    rewrite Forall_forall in Hlog.
    destruct (Hlog _ Hin) as [line Heq]. discriminate Heq.
Qed.

(** ** More on the fallback estimator *)

(** X4.  The only error that escapes the fallback estimator is that of
    its catalog query: it raises [e] exactly when reading the catalog
    raises [e], and then the catalog query is all it has executed. *)
Theorem fallback_only_catalog_error tc conn e :
  (outcome (estimate_table_sizes_fallback format_2f tc conn) = inl e
   <-> sqlite_master conn = inl e)
  /\ (sqlite_master conn = inl e ->
      estimate_table_sizes_fallback format_2f tc conn
      = ([Execute TABLES_QUERY], inl e)).
Proof.
  split.
  - destruct (sqlite_master conn) as [e'|master] eqn:Hm.
    + unfold estimate_table_sizes_fallback, tables_answer. rewrite Hm.
      simpl. split; congruence.
    + rewrite (fallback_outcome format_2f tc conn (user_table_names master))
        by (unfold tables_answer; rewrite Hm; reflexivity).
      split; discriminate.
  - intros Hm. unfold estimate_table_sizes_fallback, tables_answer.
    rewrite Hm. reflexivity.
Qed.

Lemma outcome_ret_inv {A} (a b : A) :
  outcome (mret a : run A) = inr b -> a = b.
Proof. intros H. injection H as ->. reflexivity. Qed.

Lemma process_table_name tc conn t d :
  outcome (process_table format_2f tc conn t) = inr d -> name d = t.
Proof.
  unfold process_table. intros H.
  apply bind_inr_inv in H as (n & _ & H).
  destruct (n =? 0); [apply outcome_ret_inv in H as <-; reflexivity|].
  destruct (tc !! t) as [cfg|].
  - apply bind_inr_inv in H as (st & _ & H).
    apply outcome_ret_inv in H as <-. reflexivity.
  - apply outcome_ret_inv in H as <-. reflexivity.
Qed.

Lemma table_record_name tc conn t :
  name (table_record format_2f tc conn t) = t.
Proof.
  unfold table_record.
  destruct (outcome (process_table format_2f tc conn t)) as [e|d] eqn:Hd;
    [reflexivity|]. eapply process_table_name, Hd.
Qed.

Lemma table_record_names tc conn (tables : list string) :
  name <$> (table_record format_2f tc conn <$> tables) = tables.
Proof.
  induction tables as [|t tables IH]; [reflexivity|].
  rewrite !fmap_cons, IH, table_record_name. reflexivity.
Qed.

Lemma user_table_name_not_system master t :
  t ∈ user_table_names master -> String.prefix "sqlite_" t = false.
Proof.
  unfold user_table_names. intros Ht.
  apply list_elem_of_fmap in Ht as (m & -> & Hm).
  apply list_elem_of_In, filter_In in Hm as [_ Huser].
  unfold user_table in Huser. apply andb_prop in Huser as [_ Hlike].
  apply negb_true_iff in Hlike.
  destruct (String.prefix "sqlite_" (m_name m)) eqn:Hpre; [|reflexivity].
  rewrite (prefix_sqlite_like _ Hpre) in Hlike. discriminate.
Qed.

(** X5.  When the catalog can be read, the fallback estimator returns
    exactly one row for each user table of the catalog (a catalog row of
    type 'table' whose name is not LIKE 'sqlite_%'), whatever happens to
    the tables: the names of the rows are those of the user tables, each
    as often, and none of them starts with "sqlite_". *)
Theorem fallback_rows_are_user_tables tc conn master :
  sqlite_master conn = inr master ->
  exists l,
    outcome (estimate_table_sizes_fallback format_2f tc conn) = inr l
    /\ name <$> l ≡ₚ user_table_names master
    /\ forall d, d ∈ l -> String.prefix "sqlite_" (name d) = false.
Proof.
  intros Hm.
  assert (tables_answer conn = inr (user_table_names master)) as Htables
    by (unfold tables_answer; rewrite Hm; reflexivity).
  eexists. split; [apply fallback_outcome, Htables|].
  assert (name <$> sort_desc detail_lt
                     (table_record format_2f tc conn <$> user_table_names master)
          ≡ₚ user_table_names master) as Hnames.
  { rewrite sort_desc_perm, table_record_names. reflexivity. }
  split; [exact Hnames|].
  intros d Hd. apply (user_table_name_not_system master).
  rewrite <- Hnames. apply list_elem_of_fmap_2, Hd.
Qed.

Lemma per_field_loop_grows kind size_query answer t columns fields st st' :
  (forall f n, answer f = inr (Some n) -> 0 <= n) ->
  outcome (per_field_loop format_2f kind size_query answer t columns fields st)
  = inr st' ->
  st.1 <= st'.1.
Proof.
  intros Hpos. revert st.
  induction fields as [|f fields IH]; intros st H; cbn [per_field_loop] in H.
  - apply outcome_ret_inv in H as <-. lia.
  - apply bind_inr_inv in H as (cols & _ & H).
    destruct (has_column f cols).
    + apply bind_inr_inv in H as (r & Hr & H).
      destruct r as [n|]; [|apply IH, H].
      apply IH in H. simpl in H. specialize (Hpos f n Hr). lia.
    + apply bind_inr_inv in H as (u & _ & H). apply IH, H.
Qed.

Lemma queried_blocks_grow conn t cfg st st' :
  lengths_nonnegative conn t ->
  outcome (queried_blocks format_2f conn t cfg st) = inr st' ->
  st.1 <= st'.1.
Proof.
  intros (Hbytes & Hjson & Hstr). unfold queried_blocks. intros H.
  apply bind_inr_inv in H as (s1 & H1 & H).
  apply bind_inr_inv in H as (s2 & H2 & H3).
  assert (st.1 <= s1.1) as L1.
  { unfold bytes_fields_block in H1. destruct (bytes_fields cfg).
    - eapply per_field_loop_grows; [apply Hbytes|exact H1].
    - apply outcome_ret_inv in H1 as <-. lia. }
  assert (s1.1 <= s2.1) as L2.
  { unfold json_fields_block in H2. destruct (json_fields cfg).
    - eapply per_field_loop_grows; [apply Hjson|exact H2].
    - apply outcome_ret_inv in H2 as <-. lia. }
  assert (s2.1 <= st'.1) as L3.
  { unfold string_fields_block in H3. destruct (string_fields cfg) as [fields|].
    - apply bind_inr_inv in H3 as (cols & _ & H3).
      apply bind_inr_inv in H3 as (valid & _ & H3).
      destruct valid as [|v valid]; [apply outcome_ret_inv in H3 as <-; lia|].
      apply bind_inr_inv in H3 as (r & Hr & H3).
      destruct r as [n|]; apply outcome_ret_inv in H3 as <-; simpl; [|lia].
      specialize (Hstr _ _ Hr). lia.
    - apply outcome_ret_inv in H3 as <-. lia. }
  lia.
Qed.

Lemma declared_size_nonnegative cfg n :
  0 <= n -> (forall b, fixed_fields_estimate_bytes cfg = Some b -> 0 <= b) ->
  0 <= declared_size cfg n.
Proof.
  intros Hn Hfixed. unfold declared_size, len.
  assert (0 <= default 0 (fixed_fields_estimate_bytes cfg)) as Hb
    by (destruct (fixed_fields_estimate_bytes cfg); simpl; [auto|lia]).
  repeat apply Z.add_nonneg_nonneg;
    repeat apply Z.mul_nonneg_nonneg; try lia.
Qed.

(** X6.  For a configured table with N > 0 rows, when no aggregate length
    is negative and the fixed overhead is not negative, the estimate is
    not negative: in particular it is never the value -1 that marks a
    table as not estimated. *)
Theorem configured_estimate_nonnegative tc conn t cfg n d :
  tc !! t = Some cfg -> count_rows conn t = inr n -> 0 < n ->
  lengths_nonnegative conn t ->
  (forall b, fixed_fields_estimate_bytes cfg = Some b -> 0 <= b) ->
  outcome (process_table format_2f tc conn t) = inr d ->
  0 <= estimated_size_bytes d /\ estimated_size_bytes d <> -1.
Proof.
  intros Hcfg Hcount Hn Hlen Hfixed Hd.
  assert (n <> 0) as Hn0 by lia.
  rewrite (process_table_configured format_2f tc conn t cfg n Hcfg Hcount Hn0)
    in Hd.
  destruct (outcome (queried_blocks format_2f conn t cfg
                       (0, format_commas n ++ " rows"))) as [e|st] eqn:Hq;
    [discriminate|].
  injection Hd as <-. simpl. rewrite declared_blocks_size.
  pose proof (queried_blocks_grow conn t cfg _ st Hlen Hq) as Hgrow.
  pose proof (declared_size_nonnegative cfg n ltac:(lia) Hfixed).
  simpl in Hgrow. lia.
Qed.

(** ** Rows that compare equal *)

Section Stable.

Context {A K : Type} `{EqDecision K} (lt : A -> A -> bool) (key : A -> K).

Hypothesis lt_key : forall x y, lt x y = true -> key x <> key y.

Lemma insert_desc_stable (k : K) (x : A) (l : list A) :
  filter (fun y => key y = k) (insert_desc lt x l)
  = filter (fun y => key y = k) (x :: l).
Proof.
  induction l as [|y l IH]; [reflexivity|]. simpl.
  destruct (lt x y) eqn:Hxy; [|reflexivity].
  rewrite (filter_cons _ y), IH, !filter_cons.
  apply lt_key in Hxy.
  destruct (decide (key y = k)), (decide (key x = k)); congruence.
Qed.

Lemma sort_desc_stable (k : K) (l : list A) :
  filter (fun y => key y = k) (sort_desc lt l) = filter (fun y => key y = k) l.
Proof.
  induction l as [|x l IH]; [reflexivity|]. simpl.
  rewrite insert_desc_stable, !filter_cons, IH. reflexivity.
Qed.

End Stable.

Lemma key_lt_irrefl (k : size_key * Z) : key_lt k k = false.
Proof.
  destruct k as [[|a] r]; unfold key_lt; simpl.
  - apply Z.ltb_irrefl.
  - rewrite Z.eqb_refl. apply Z.ltb_irrefl.
Qed.

(** X7.  The sort of the fallback estimator is stable: the rows that have
    the same sort key (the same estimate, or the sentinel and the same row
    count) come in the order in which the loop found their tables in the
    catalog. *)
Theorem fallback_keeps_catalog_order tc conn tables :
  tables_answer conn = inr tables ->
  exists l,
    outcome (estimate_table_sizes_fallback format_2f tc conn) = inr l
    /\ forall k,
         filter (fun d => sort_key d = k) l
         = filter (fun d => sort_key d = k)
             (table_record format_2f tc conn <$> tables).
Proof.
  intros Htables. eexists. split; [apply fallback_outcome, Htables|].
  intros k. apply sort_desc_stable.
  intros x y Hxy Heq. unfold detail_lt in Hxy.
  rewrite Heq, key_lt_irrefl in Hxy. discriminate.
Qed.

(** ** What the loop does for every table *)

Lemma log_try_except_l {A} (m : run A) (h : exn -> run A) (ev : event) :
  ev ∈ log_of m -> ev ∈ log_of (try_except m h).
Proof.
  destruct m as [l [e|a]]; simpl; intros Hev; [|exact Hev].
  destruct (h e) as [l' r]. simpl. apply elem_of_app. left. exact Hev.
Qed.

Lemma log_try_except_r {A} (m : run A) (h : exn -> run A) (e : exn)
    (ev : event) :
  outcome m = inl e -> ev ∈ log_of (h e) -> ev ∈ log_of (try_except m h).
Proof.
  destruct m as [l [e'|a]]; simpl; intros He Hev; [|discriminate].
  injection He as ->. destruct (h e) as [l' r]. simpl in *.
  apply elem_of_app. right. exact Hev.
Qed.

Lemma mapM_table_step_log tc conn (tables : list string) t ev :
  t ∈ tables -> ev ∈ log_of (table_step format_2f tc conn t) ->
  ev ∈ log_of (mapM (table_step format_2f tc conn) tables).
Proof.
  intros Ht Hev. induction tables as [|t0 tables IH].
  - apply elem_of_nil in Ht. contradiction.
  - cbn [mapM]. apply elem_of_cons in Ht as [<-|Ht].
    + apply log_bind_l, Hev.
    + apply (log_bind_r _ _ _ _ (table_step_outcome format_2f tc conn t0)).
      apply log_bind_l, IH, Ht.
Qed.

(** X8.  When the catalog can be read, the fallback estimator counts the
    rows of every user table, also of those that come after a table that
    failed; and for every table whose estimation raised [e] it prints
    "Error processing table <name>: <e>" on stderr. *)
Theorem fallback_visits_every_table tc conn tables t :
  tables_answer conn = inr tables -> t ∈ tables ->
  Execute (count_query t)
    ∈ log_of (estimate_table_sizes_fallback format_2f tc conn)
  /\ forall e,
       outcome (process_table format_2f tc conn t) = inl e ->
       Stderr ("Error processing table " ++ t ++ ": " ++ str e)
         ∈ log_of (estimate_table_sizes_fallback format_2f tc conn).
Proof.
  intros Htables Ht.
  assert (forall ev, ev ∈ log_of (table_step format_2f tc conn t) ->
            ev ∈ log_of (estimate_table_sizes_fallback format_2f tc conn))
    as Hlift.
  { intros ev Hev. unfold estimate_table_sizes_fallback. rewrite Htables.
    apply (log_bind_r _ _ tables); [reflexivity|].
    apply log_bind_l. eapply mapM_table_step_log; eassumption. }
  split.
  - apply Hlift. unfold table_step. apply log_try_except_l.
    unfold process_table. apply log_bind_l, list_elem_of_here.
  - intros e He. apply Hlift. unfold table_step.
    apply (log_try_except_r _ _ e _ He).
    apply log_bind_l, list_elem_of_here.
Qed.

(** ** What the primary estimator reports *)

(** X9.  [analyze_with_dbstat] executes its one query and nothing else.
    It writes nothing on stderr when the query answers and when it raises
    for a build without [dbstat]; for any other error it writes one line
    there that ends with the text of the error. *)
Theorem dbstat_error_report conn :
  (forall l, dbstat_answer conn = inr l ->
     log_of (analyze_with_dbstat conn) = [Execute DBSTAT_QUERY])
  /\ (forall e, dbstat_answer conn = inl e -> dbstat_missing e = true ->
        log_of (analyze_with_dbstat conn) = [Execute DBSTAT_QUERY])
  /\ (forall e, dbstat_answer conn = inl e -> dbstat_missing e = false ->
        exists intro,
          log_of (analyze_with_dbstat conn)
          = [Execute DBSTAT_QUERY; Stderr (intro ++ str e)]).
Proof.
  unfold analyze_with_dbstat. split; [|split].
  - intros l ->. destruct l; reflexivity.
  - intros e -> Hmissing. destruct e as [msg|msg]; [|discriminate].
    simpl in Hmissing.
    unfold try_except, execute, mbind, run_bind, log_of. simpl.
    rewrite Hmissing. reflexivity.
  - intros e -> Hmissing. destruct e as [msg|msg].
    + simpl in Hmissing.
      unfold try_except, execute, mbind, run_bind, log_of. simpl.
      rewrite Hmissing. eexists. reflexivity.
    + eexists. reflexivity.
Qed.

Lemma analyze_success_answer conn l :
  outcome (analyze_with_dbstat conn) = inr (Some l) ->
  dbstat_answer conn = inr l.
Proof.
  rewrite analyze_with_dbstat_outcome.
  destruct (dbstat_answer conn) as [e|[|r rows]]; try discriminate.
  intros H. injection H as <-. reflexivity.
Qed.

Lemma grouped_rows_names (joined : list (string * Z)) :
  (grouped_rows joined).*1 = remove_dups (joined.*1).
Proof.
  unfold grouped_rows. induction (remove_dups (joined.*1)) as [|n names IH];
    [reflexivity|]. rewrite !fmap_cons, IH. reflexivity.
Qed.

Lemma joined_rows_names master stat n :
  n ∈ (joined_rows master stat).*1
  <-> n ∈ user_table_names master /\ exists s, s ∈ stat /\ s_name s = n.
Proof.
  unfold joined_rows, user_table_names. split.
  - intros Hn. apply list_elem_of_fmap in Hn as (p & -> & Hp).
    apply list_elem_of_In, in_flat_map in Hp as (m & Hm & Hp).
    apply list_elem_of_In, list_elem_of_fmap in Hp as (s & -> & Hs).
    apply list_elem_of_In, filter_In in Hs as [Hs Heq].
    apply String.eqb_eq in Heq. simpl. split.
    + apply list_elem_of_fmap_2, list_elem_of_In, Hm.
    + exists s. split; [apply list_elem_of_In, Hs|exact Heq].
  - intros (Hn & s & Hs & Heq).
    apply list_elem_of_fmap in Hn as (m & -> & Hm).
    apply list_elem_of_fmap. exists (m_name m, s_pgsize s). split; [reflexivity|].
    apply list_elem_of_In, in_flat_map. exists m.
    split; [apply list_elem_of_In, Hm|].
    apply list_elem_of_In.
    apply (list_elem_of_fmap_2 (fun s0 => (m_name m, s_pgsize s0))).
    apply list_elem_of_In, filter_In.
    split; [apply list_elem_of_In, Hs|apply String.eqb_eq, Heq].
Qed.

(** X10.  A result of the primary estimator names each table once, and
    names exactly the user tables of the catalog that have at least one
    row in [dbstat]: a user table without pages is left out, and so is
    whatever [dbstat] lists that is not a user table. *)
Theorem dbstat_reports_tables_with_pages conn master stat l :
  sqlite_master conn = inr master -> dbstat conn = inr stat ->
  outcome (analyze_with_dbstat conn) = inr (Some l) ->
  NoDup (l.*1)
  /\ forall n,
       n ∈ l.*1
       <-> n ∈ user_table_names master /\ exists s, s ∈ stat /\ s_name s = n.
Proof.
  intros Hm Hs Hl. apply analyze_success_answer in Hl.
  unfold dbstat_answer in Hl. rewrite Hm, Hs in Hl. injection Hl as <-.
  assert ((sort_desc total_lt (grouped_rows (joined_rows master stat))).*1
          ≡ₚ remove_dups ((joined_rows master stat).*1)) as Hnames
    by (rewrite sort_desc_perm, grouped_rows_names; reflexivity).
  split.
  - rewrite Hnames. apply NoDup_remove_dups.
  - intros n. rewrite Hnames, elem_of_remove_dups. apply joined_rows_names.
Qed.

Lemma filter_joined_other m n stat :
  m_name m <> n ->
  List.filter (fun r : string * Z => String.eqb r.1 n)
    ((fun s => (m_name m, s_pgsize s))
       <$> List.filter (fun s => String.eqb (s_name s) (m_name m)) stat)
  = [].
Proof.
  intros Hne.
  induction (List.filter (fun s => String.eqb (s_name s) (m_name m)) stat)
    as [|s rows IH]; [reflexivity|].
  rewrite fmap_cons. simpl.
  destruct (String.eqb_spec (m_name m) n); [contradiction|exact IH].
Qed.

Lemma filter_joined_same n stat :
  sum_Z
    ((List.filter (fun r : string * Z => String.eqb r.1 n)
        ((fun s => (n, s_pgsize s))
           <$> List.filter (fun s => String.eqb (s_name s) n) stat)).*2)
  = page_total n stat.
Proof.
  unfold page_total.
  induction (List.filter (fun s => String.eqb (s_name s) n) stat)
    as [|s rows IH]; [reflexivity|].
  rewrite !fmap_cons. simpl. rewrite String.eqb_refl.
  rewrite fmap_cons. simpl. rewrite IH. reflexivity.
Qed.

Lemma filter_joined_absent masters stat n :
  n ∉ m_name <$> masters ->
  List.filter (fun r : string * Z => String.eqb r.1 n)
    (flat_map
       (fun m =>
          (fun s => (m_name m, s_pgsize s))
            <$> List.filter (fun s => String.eqb (s_name s) (m_name m)) stat)
       masters)
  = [].
Proof.
  induction masters as [|m masters IH]; intros Hn; [reflexivity|].
  rewrite fmap_cons in Hn. apply not_elem_of_cons in Hn as [Hne Hn].
  simpl. rewrite List.filter_app, (IH Hn), filter_joined_other by congruence.
  reflexivity.
Qed.

Lemma joined_rows_total master stat n :
  NoDup (user_table_names master) -> n ∈ user_table_names master ->
  sum_Z ((List.filter (fun r : string * Z => String.eqb r.1 n)
            (joined_rows master stat)).*2)
  = page_total n stat.
Proof.
  unfold joined_rows, user_table_names.
  induction (List.filter user_table master) as [|m masters IH];
    intros Hnodup Hn.
  - apply elem_of_nil in Hn. contradiction.
  - rewrite fmap_cons in Hnodup, Hn. apply NoDup_cons in Hnodup as [Hm Hnodup].
    simpl. rewrite List.filter_app, fmap_app.
    destruct (String.eqb_spec (m_name m) n) as [<-|Hne].
    + rewrite (filter_joined_absent masters stat (m_name m) Hm).
      rewrite app_nil_r. apply filter_joined_same.
    + rewrite filter_joined_other by exact Hne.
      apply elem_of_cons in Hn as [Heq|Hn]; [congruence|].
      apply IH; assumption.
Qed.

(** X11.  When the names of the user tables are distinct, the total that
    the primary estimator reports for a table is the sum of the page
    sizes that [dbstat] lists under the name of the table, and of no
    other: the pages of an index are not counted for its table. *)
Theorem dbstat_totals conn master stat l r :
  sqlite_master conn = inr master -> dbstat conn = inr stat ->
  NoDup (user_table_names master) ->
  outcome (analyze_with_dbstat conn) = inr (Some l) -> r ∈ l ->
  r.2 = page_total r.1 stat.
Proof.
  intros Hm Hs Hnodup Hl Hr. apply analyze_success_answer in Hl.
  unfold dbstat_answer in Hl. rewrite Hm, Hs in Hl. injection Hl as <-.
  rewrite sort_desc_perm in Hr. unfold grouped_rows in Hr.
  apply list_elem_of_fmap in Hr as (n & -> & Hn). simpl.
  rewrite elem_of_remove_dups in Hn.
  apply joined_rows_names in Hn as [Hn _].
  apply joined_rows_total; assumption.
Qed.

(** ** The schema of the script *)

Lemma table_config_plain t cfg :
  TABLE_CONFIG !! t = Some cfg -> plain_entry cfg.
Proof.
  unfold TABLE_CONFIG. intros H. apply elem_of_list_to_map_2 in H.
  repeat (apply elem_of_cons in H as [H|H];
          [injection H as -> ->; split; reflexivity|]).
  apply elem_of_nil in H. contradiction.
Qed.

(** X12.  Under the schema the script ships, [TABLE_CONFIG], the estimate
    of a table with N > 0 rows whose queries answer is the sum the
    specification gives: the aggregate lengths of the valid string and
    JSON fields and the fixed widths of the counted groups times N.  No
    entry of that schema declares bytes fields or a fixed overhead other
    than zero. *)
Theorem shipped_schema_estimate conn t cfg n :
  TABLE_CONFIG !! t = Some cfg -> count_rows conn t = inr n -> 0 < n ->
  queries_answered conn t cfg = true ->
  plain_entry cfg
  /\ exists notes,
       outcome (process_table format_2f TABLE_CONFIG conn t)
       = inr (Detail t n (specified_size conn t cfg n) notes).
Proof.
  intros Hcfg Hcount Hn Hok.
  pose proof (table_config_plain t cfg Hcfg) as Hplain.
  split; [exact Hplain|]. destruct Hplain as [Hbytes _].
  assert (n <> 0) as Hn0 by lia.
  rewrite (process_table_configured format_2f TABLE_CONFIG conn t cfg n
             Hcfg Hcount Hn0).
  destruct (queried_blocks_outcome format_2f conn t cfg
              (0, format_commas n ++ " rows") Hok) as [notes' ->].
  eexists. f_equal. f_equal. rewrite declared_blocks_size.
  unfold specified_size, bytes_size, per_field_total. rewrite Hbytes.
  simpl. lia.
Qed.

(** ** The two revisions *)

Lemma string_fields_block_cases conn t cfg st :
  outcome (string_fields_block format_2f conn t cfg st)
  = match string_fields cfg with
    | None => inr st
    | Some fields =>
        match table_info conn t with
        | inl e => inl e
        | inr cols =>
            match valid_fields cols fields with
            | [] => inr st
            | valid =>
                match sum_lengths conn t valid with
                | inl e => inl e
                | inr None => inr st
                | inr (Some n) =>
                    inr (st.1 + n,
                         st.2 ++ "; String fields total: "
                           ++ format_bytes format_2f n)
                end
            end
        end
    end.
Proof.
  unfold string_fields_block. destruct (string_fields cfg) as [fields|];
    [|reflexivity].
  destruct (table_info conn t) as [e|cols]; [reflexivity|].
  rewrite (outcome_bind_inr _ _ cols) by reflexivity.
  rewrite (outcome_bind_inr _ _ _ (valid_str_fields_outcome t cols fields)).
  destruct (valid_fields cols fields) as [|v valid]; [reflexivity|].
  destruct (sum_lengths conn t (v :: valid)) as [e|[n|]]; reflexivity.
Qed.

Lemma earlier_string_fields_block_cases conn t cfg st :
  outcome (helpers_db.string_fields_block conn t cfg st)
  = match string_fields cfg with
    | None => inr st
    | Some fields =>
        match table_info conn t with
        | inl e => inl e
        | inr cols =>
            match valid_fields cols fields with
            | [] => inr st
            | valid =>
                match sum_lengths conn t valid with
                | inl e => inl e
                | inr None => inr st
                | inr (Some n) => inr (st.1 + n, st.2)
                end
            end
        end
    end.
Proof.
  unfold helpers_db.string_fields_block.
  destruct (string_fields cfg) as [fields|]; [|reflexivity].
  destruct (table_info conn t) as [e|cols]; [reflexivity|].
  rewrite (outcome_bind_inr _ _ cols) by reflexivity.
  rewrite (outcome_bind_inr _ _ _ (valid_str_fields_outcome t cols fields)).
  destruct (valid_fields cols fields) as [|v valid]; [reflexivity|].
  destruct (sum_lengths conn t (v :: valid)) as [e|[n|]]; reflexivity.
Qed.

Lemma declared_blocks_earlier_groups cfg n st :
  earlier_groups cfg ->
  declared_blocks format_2f cfg n st = fixed_fields_block cfg n st.
Proof.
  intros (_ & Hf & Hi & Hbi & Hbo & Hdt).
  unfold declared_blocks, datetime_fields_block, boolean_fields_block,
    bigint_fields_block, int_fields_block, float_fields_block.
  rewrite Hf, Hi, Hbi, Hbo, Hdt. reflexivity.
Qed.

Lemma queried_blocks_no_bytes conn t cfg st :
  bytes_fields cfg = None ->
  outcome (queried_blocks format_2f conn t cfg st)
  = match outcome (json_fields_block format_2f conn t cfg st) with
    | inl e => inl e
    | inr s1 => outcome (string_fields_block format_2f conn t cfg s1)
    end.
Proof.
  intros Hbytes. unfold queried_blocks, bytes_fields_block. rewrite Hbytes.
  rewrite (outcome_bind_inr _ _ st) by reflexivity.
  destruct (outcome (json_fields_block format_2f conn t cfg st))
    as [e|s1] eqn:Hjson.
  - apply outcome_bind_inl, Hjson.
  - apply outcome_bind_inr, Hjson.
Qed.

Lemma earlier_process_table_configured tc conn t cfg n :
  tc !! t = Some cfg -> count_rows conn t = inr n -> n <> 0 ->
  outcome (helpers_db.process_table format_2f tc conn t)
  = match outcome (json_fields_block format_2f conn t cfg
                     (0, format_commas n ++ " rows")) with
    | inl e => inl e
    | inr s1 =>
        match outcome (helpers_db.string_fields_block conn t cfg s1) with
        | inl e => inl e
        | inr s2 =>
            inr (Detail t n (fixed_fields_block cfg n s2).1
                   (fixed_fields_block cfg n s2).2)
        end
    end.
Proof.
  intros Hcfg Hcount Hn. unfold helpers_db.process_table.
  rewrite Hcount, Hcfg.
  rewrite (outcome_bind_inr _ _ n) by reflexivity.
  apply Z.eqb_neq in Hn. rewrite Hn.
  destruct (outcome (json_fields_block format_2f conn t cfg
                       (0, format_commas n ++ " rows"))) as [e|s1] eqn:Hjson.
  - apply outcome_bind_inl, Hjson.
  - rewrite (outcome_bind_inr _ _ s1 Hjson).
    destruct (outcome (helpers_db.string_fields_block conn t cfg s1))
      as [e|s2] eqn:Hstr.
    + apply outcome_bind_inl, Hstr.
    + rewrite (outcome_bind_inr _ _ s2 Hstr). reflexivity.
Qed.

(** X13.  For a table whose schema entry, if it has one, declares only
    the groups the earlier revision knows (JSON, string, fixed overhead),
    the fallback estimators of the two revisions record the same name, row
    count and estimate, or fail with the same error; they differ at most
    in the notes. *)
Theorem revisions_agree tc conn t :
  (forall cfg, tc !! t = Some cfg -> earlier_groups cfg) ->
  same_estimate
    (outcome (helpers_db.process_table format_2f tc conn t))
    (outcome (process_table format_2f tc conn t)).
Proof.
  intros Hgroups.
  destruct (count_rows conn t) as [e|n] eqn:Hcount.
  { unfold helpers_db.process_table, process_table. rewrite Hcount.
    reflexivity. }
  destruct (Z.eq_dec n 0) as [->|Hn].
  { rewrite (process_table_empty format_2f tc conn t Hcount).
    unfold helpers_db.process_table. rewrite Hcount. repeat split. }
  destruct (tc !! t) as [cfg|] eqn:Hcfg.
  - specialize (Hgroups cfg eq_refl). pose proof Hgroups as (Hbytes & _).
    rewrite (earlier_process_table_configured tc conn t cfg n Hcfg Hcount Hn).
    rewrite (process_table_configured format_2f tc conn t cfg n Hcfg Hcount Hn).
    rewrite (queried_blocks_no_bytes conn t cfg _ Hbytes).
    destruct (outcome (json_fields_block format_2f conn t cfg
                         (0, format_commas n ++ " rows"))) as [e|s1];
      [reflexivity|].
    rewrite earlier_string_fields_block_cases, string_fields_block_cases.
    assert (forall s2 s2' : acc, s2.1 = s2'.1 ->
              same_estimate
                (inr (Detail t n (fixed_fields_block cfg n s2).1
                        (fixed_fields_block cfg n s2).2))
                (inr (Detail t n (declared_blocks format_2f cfg n s2').1
                        (declared_blocks format_2f cfg n s2').2))) as Hfinal.
    { intros s2 s2' Heq.
      rewrite declared_blocks_earlier_groups by exact Hgroups.
      unfold fixed_fields_block.
      destruct (fixed_fields_estimate_bytes cfg); simpl;
        repeat split; congruence. }
    destruct (string_fields cfg) as [fields|]; [|apply Hfinal; reflexivity].
    destruct (table_info conn t) as [e|cols]; [reflexivity|].
    destruct (valid_fields cols fields) as [|v valid];
      [apply Hfinal; reflexivity|].
    destruct (sum_lengths conn t (v :: valid)) as [e|[m|]];
      [reflexivity|apply Hfinal; reflexivity|apply Hfinal; reflexivity].
  - rewrite (process_table_unconfigured format_2f tc conn t n Hcfg Hcount Hn).
    unfold helpers_db.process_table. rewrite Hcount, Hcfg.
    apply Z.eqb_neq in Hn. unfold execute, mbind, run_bind. rewrite Hn.
    repeat split.
Qed.

(** ** How often the live columns are read *)

Lemma executions_app sql (l l' : list event) :
  executions sql (l ++ l') = (executions sql l + executions sql l')%nat.
Proof. unfold executions. rewrite filter_app, length_app. reflexivity. Qed.

Lemma executions_nil sql : executions sql [] = 0%nat.
Proof. reflexivity. Qed.

Lemma executions_same sql (l : list event) :
  executions sql (Execute sql :: l) = S (executions sql l).
Proof.
  unfold executions. rewrite filter_cons.
  destruct (decide (Execute sql = Execute sql)); [reflexivity|congruence].
Qed.

Lemma executions_other sql ev (l : list event) :
  ev <> Execute sql -> executions sql (ev :: l) = executions sql l.
Proof.
  intros Hne. unfold executions. rewrite filter_cons.
  destruct (decide (ev = Execute sql)); [contradiction|reflexivity].
Qed.

Lemma per_field_loop_reads kind size_query answer t columns fields st st' :
  (forall f, size_query f <> table_info_query t) ->
  outcome (per_field_loop format_2f kind size_query answer t columns
             fields st) = inr st' ->
  executions (table_info_query t)
    (log_of (per_field_loop format_2f kind size_query answer t columns
               fields st))
  = length fields.
Proof.
  intros Hq. revert st.
  induction fields as [|f fields IH]; intros st H; [reflexivity|].
  cbn [per_field_loop] in *.
  apply bind_inr_inv in H as (cols & Hcols & H).
  rewrite (log_bind_inr _ _ cols Hcols). cbv beta.
  change (log_of (execute (table_info_query t) columns))
    with [Execute (table_info_query t)].
  rewrite executions_app, executions_same, executions_nil, Nat.add_1_l.
  cbn [length]. f_equal.
  destruct (has_column f cols).
  - apply bind_inr_inv in H as (r & Hr & H).
    rewrite (log_bind_inr _ _ r Hr). cbv beta.
    change (log_of (execute (size_query f) (answer f)))
      with [Execute (size_query f)].
    rewrite executions_app, executions_other, executions_nil, Nat.add_0_l
      by (specialize (Hq f); congruence).
    destruct r as [n|]; eapply IH, H.
  - apply bind_inr_inv in H as (u & Hu & H). destruct u.
    rewrite (log_bind_inr _ _ tt Hu). cbv beta.
    change (log_of (eprint (missing_field_warning kind f t)))
      with [Stderr (missing_field_warning kind f t)].
    rewrite executions_app, executions_other, executions_nil, Nat.add_0_l
      by discriminate.
    eapply IH, H.
Qed.

Lemma valid_str_fields_reads sql t cols fields :
  executions sql (log_of (valid_str_fields t cols fields)) = 0%nat.
Proof.
  induction fields as [|f fields IH]; [reflexivity|].
  cbn [valid_str_fields]. destruct (has_column f cols).
  - rewrite (log_bind_inr _ _ _ (valid_str_fields_outcome t cols fields)).
    rewrite executions_app, IH. reflexivity.
  - rewrite (log_bind_inr _ _ tt) by reflexivity. cbv beta.
    change (log_of (eprint (missing_field_warning "String" f t)))
      with [Stderr (missing_field_warning "String" f t)].
    rewrite executions_app, executions_other, executions_nil, Nat.add_0_l
      by discriminate.
    exact IH.
Qed.

Lemma select_is_not_table_info (rest t : string) :
  "SELECT " ++ rest <> table_info_query t.
Proof. discriminate. Qed.

Lemma string_fields_block_reads conn t cfg st st' :
  outcome (string_fields_block format_2f conn t cfg st) = inr st' ->
  executions (table_info_query t)
    (log_of (string_fields_block format_2f conn t cfg st))
  = if string_fields cfg is Some _ then 1%nat else 0%nat.
Proof.
  unfold string_fields_block.
  destruct (string_fields cfg) as [fields|]; [|reflexivity].
  intros H. apply bind_inr_inv in H as (cols & Hcols & H).
  rewrite (outcome_bind_inr _ _ _ (valid_str_fields_outcome t cols fields)) in H.
  rewrite (log_bind_inr _ _ cols Hcols). cbv beta.
  rewrite (log_bind_inr _ _ _ (valid_str_fields_outcome t cols fields)).
  cbv beta.
  change (log_of (execute (table_info_query t) (table_info conn t)))
    with [Execute (table_info_query t)].
  rewrite executions_app, executions_same, executions_nil, Nat.add_1_l.
  rewrite executions_app, valid_str_fields_reads, Nat.add_0_l.
  f_equal.
  destruct (valid_fields cols fields) as [|v valid]; [reflexivity|].
  apply bind_inr_inv in H as (r & Hr & H).
  rewrite (log_bind_inr _ _ r Hr). cbv beta.
  change (log_of (execute (str_size_query t (length_part <$> v :: valid))
                    (sum_lengths conn t (v :: valid))))
    with [Execute (str_size_query t (length_part <$> v :: valid))].
  rewrite executions_app, executions_other, executions_nil, Nat.add_0_l
    by discriminate.
  destruct r; reflexivity.
Qed.

(** X14.  The estimate of a configured table with rows, when it succeeds,
    has read the live columns with [PRAGMA table_info] once for every
    declared bytes field, once for every declared JSON field and once for
    the string group, and not at all for the counted groups. *)
Theorem table_info_read_per_field tc conn t cfg n d :
  tc !! t = Some cfg -> count_rows conn t = inr n -> n <> 0 ->
  outcome (process_table format_2f tc conn t) = inr d ->
  executions (table_info_query t) (log_of (process_table format_2f tc conn t))
  = table_info_reads cfg.
Proof.
  intros Hcfg Hcount Hn Hd. unfold process_table in *.
  rewrite Hcount, Hcfg in *.
  rewrite (outcome_bind_inr _ _ n) in Hd by reflexivity.
  rewrite (log_bind_inr _ _ n) by reflexivity. cbv beta.
  apply Z.eqb_neq in Hn. rewrite Hn in *.
  apply bind_inr_inv in Hd as (st & Hq & _).
  rewrite (log_bind_inr _ _ st Hq). cbv beta.
  change (log_of (execute (count_query t) (inr n)))
    with [Execute (count_query t)].
  rewrite executions_app, executions_other, executions_nil, Nat.add_0_l
    by discriminate.
  rewrite executions_app.
  change (log_of (mret (Detail t n (declared_blocks format_2f cfg n st).1
                          (declared_blocks format_2f cfg n st).2)))
    with (@nil event).
  rewrite executions_nil, Nat.add_0_r.
  unfold queried_blocks in *.
  apply bind_inr_inv in Hq as (s1 & H1 & Hq).
  apply bind_inr_inv in Hq as (s2 & H2 & H3).
  rewrite (log_bind_inr _ _ s1 H1). cbv beta.
  rewrite (log_bind_inr _ _ s2 H2). cbv beta.
  rewrite !executions_app.
  rewrite (string_fields_block_reads conn t cfg s2 st H3).
  unfold table_info_reads, bytes_fields_block, json_fields_block in *.
  rewrite Nat.add_assoc. f_equal. f_equal.
  - destruct (bytes_fields cfg) as [fields|]; [|reflexivity].
    eapply per_field_loop_reads; [|exact H1].
    intros f. apply select_is_not_table_info.
  - destruct (json_fields cfg) as [fields|]; [|reflexivity].
    eapply per_field_loop_reads; [|exact H2].
    intros f. apply select_is_not_table_info.
Qed.

(** ** The two estimators on the same catalog *)

(** X15.  Every table that the primary estimator reports is a table for
    which the fallback estimator, run on the same connection, returns a
    row. *)
Theorem primary_tables_known_to_fallback tc conn l r :
  outcome (analyze_with_dbstat conn) = inr (Some l) -> r ∈ l ->
  exists l',
    outcome (estimate_table_sizes_fallback format_2f tc conn) = inr l'
    /\ r.1 ∈ name <$> l'.
Proof.
  intros Hl Hr. apply analyze_success_answer in Hl.
  unfold dbstat_answer in Hl.
  destruct (sqlite_master conn) as [e|master] eqn:Hm; [discriminate|].
  destruct (dbstat conn) as [e|stat]; [discriminate|].
  injection Hl as <-.
  eexists. split.
  - apply fallback_outcome. unfold tables_answer. rewrite Hm. reflexivity.
  - rewrite sort_desc_perm, table_record_names.
    rewrite sort_desc_perm in Hr.
    assert (r.1 ∈ (grouped_rows (joined_rows master stat)).*1) as Hname
      by (apply list_elem_of_fmap_2, Hr).
    rewrite grouped_rows_names, elem_of_remove_dups in Hname.
    apply joined_rows_names in Hname as [Hname _]. exact Hname.
Qed.

End More_facts.

(** ** The further properties on the example databases *)

Lemma main_exit_status_witness :
  (main two_decimals demo_schema (demo_env demo_conn)).2 = 0
  /\ (main two_decimals demo_schema (demo_env locked_conn)).2 <> 0.
Proof.
  split.
  - apply (main_exit_status two_decimals demo_schema (demo_env demo_conn)).
    split; [reflexivity|]. exists demo_conn, demo_master.
    split; reflexivity.
  - intros Hzero.
    apply (main_exit_status two_decimals demo_schema (demo_env locked_conn))
      in Hzero as (_ & conn & master & Hconn & Hmaster).
    injection Hconn as <-. discriminate Hmaster.
Defined.

Lemma main_connection_discipline_witness :
  exists l,
    (main two_decimals demo_schema (demo_env locked_conn)).1 = (l ++ [Close])%list
    /\ Close ∉ l.
Proof.
  destruct (main_connection_discipline two_decimals demo_schema
              (demo_env locked_conn)) as [Hclosed _].
  apply (Hclosed locked_conn); reflexivity.
Defined.

Lemma main_reads_only_witness : reads_only (count_query "Wallet").
Proof.
  apply (main_reads_only two_decimals demo_schema (demo_env demo_conn)).
  vm_compute. do 2 apply list_elem_of_further. apply list_elem_of_here.
Defined.

Lemma fallback_only_catalog_error_witness :
  estimate_table_sizes_fallback two_decimals demo_schema locked_conn
  = ([Execute TABLES_QUERY], inl (OperationalError "database is locked")).
Proof.
  apply (fallback_only_catalog_error two_decimals demo_schema locked_conn
           (OperationalError "database is locked")).
  reflexivity.
Defined.

Lemma fallback_rows_are_user_tables_witness :
  exists l,
    outcome (estimate_table_sizes_fallback two_decimals demo_schema demo_conn)
    = inr l
    /\ name <$> l ≡ₚ user_table_names demo_master
    /\ forall d, d ∈ l -> String.prefix "sqlite_" (name d) = false.
Proof.
  apply (fallback_rows_are_user_tables two_decimals demo_schema demo_conn
           demo_master).
  reflexivity.
Defined.

Lemma configured_estimate_nonnegative_witness :
  0 <= estimated_size_bytes (Detail "Wallet" 2 124 wallet_notes)
  /\ estimated_size_bytes (Detail "Wallet" 2 124 wallet_notes) <> -1.
Proof.
  apply (configured_estimate_nonnegative two_decimals demo_schema demo_conn
           "Wallet" wallet_cfg 2).
  - reflexivity.
  - reflexivity.
  - lia.
  - repeat split; simpl; intros ? n Hn; try discriminate Hn;
      injection Hn as Hn; lia.
  - simpl. intros b Hb. injection Hb as Hb. lia.
  - vm_compute. reflexivity.
Defined.

Lemma fallback_keeps_catalog_order_witness :
  exists l,
    outcome (estimate_table_sizes_fallback two_decimals demo_schema demo_conn)
    = inr l
    /\ forall k,
         filter (fun d => sort_key d = k) l
         = filter (fun d => sort_key d = k)
             (table_record two_decimals demo_schema demo_conn <$> demo_tables).
Proof.
  apply (fallback_keeps_catalog_order two_decimals demo_schema demo_conn
           demo_tables).
  reflexivity.
Defined.

Lemma fallback_visits_every_table_witness :
  Execute (count_query "Broken")
    ∈ log_of (estimate_table_sizes_fallback two_decimals demo_schema demo_conn)
  /\ forall e,
       outcome (process_table two_decimals demo_schema demo_conn "Broken")
       = inl e ->
       Stderr ("Error processing table " ++ "Broken" ++ ": " ++ str e)
         ∈ log_of (estimate_table_sizes_fallback two_decimals demo_schema
                     demo_conn).
Proof.
  apply (fallback_visits_every_table two_decimals demo_schema demo_conn
           demo_tables "Broken").
  - reflexivity.
  - unfold demo_tables. repeat constructor.
Defined.

Lemma dbstat_error_report_witness :
  log_of (analyze_with_dbstat demo_conn) = [Execute DBSTAT_QUERY]
  /\ exists intro,
       log_of (analyze_with_dbstat locked_conn)
       = [Execute DBSTAT_QUERY;
          Stderr (intro ++ str (OperationalError "database is locked"))].
Proof.
  split.
  - apply (dbstat_error_report demo_conn)
      with (e := OperationalError "no such table: dbstat"); reflexivity.
  - apply (dbstat_error_report locked_conn); reflexivity.
Defined.

Lemma dbstat_reports_tables_with_pages_witness :
  NoDup ([("Audit", 8192); ("Wallet", 4096)] : list (string * Z)).*1
  /\ forall n,
       n ∈ ([("Audit", 8192); ("Wallet", 4096)] : list (string * Z)).*1
       <-> n ∈ user_table_names stat_master
           /\ exists s, s ∈ stat_pages /\ s_name s = n.
Proof.
  apply (dbstat_reports_tables_with_pages stat_conn stat_master stat_pages);
    [reflexivity | reflexivity | vm_compute; reflexivity].
Defined.

Lemma dbstat_totals_witness :
  (("Audit", 8192) : string * Z).2 = page_total "Audit" stat_pages.
Proof.
  apply (dbstat_totals stat_conn stat_master stat_pages
           [("Audit", 8192); ("Wallet", 4096)] ("Audit", 8192)).
  - reflexivity.
  - reflexivity.
  - apply (bool_decide_unpack _). vm_compute. exact I.
  - vm_compute. reflexivity.
  - apply list_elem_of_here.
Defined.

Lemma shipped_schema_estimate_witness :
  exists cfg,
    TABLE_CONFIG !! "Wallet" = Some cfg
    /\ plain_entry cfg
    /\ exists notes,
         outcome (process_table two_decimals TABLE_CONFIG demo_conn "Wallet")
         = inr (Detail "Wallet" 2 (specified_size demo_conn "Wallet" cfg 2) notes).
Proof.
  eexists. split; [vm_compute; reflexivity|].
  apply (shipped_schema_estimate two_decimals demo_conn "Wallet" _ 2);
    [vm_compute; reflexivity | reflexivity | lia | vm_compute; reflexivity].
Defined.

Lemma revisions_agree_witness :
  same_estimate
    (outcome (helpers_db.process_table two_decimals helpers_db.TABLE_CONFIG
                swap_conn "SwapAnalysisInput"))
    (outcome (process_table two_decimals helpers_db.TABLE_CONFIG
                swap_conn "SwapAnalysisInput")).
Proof.
  apply (revisions_agree two_decimals helpers_db.TABLE_CONFIG swap_conn
           "SwapAnalysisInput").
  intros cfg Hcfg. vm_compute in Hcfg. injection Hcfg as <-.
  repeat split.
Defined.

Lemma table_info_read_per_field_witness :
  executions (table_info_query "Wallet")
    (log_of (process_table two_decimals demo_schema demo_conn "Wallet"))
  = 3%nat.
Proof.
  apply (table_info_read_per_field two_decimals demo_schema demo_conn "Wallet"
           wallet_cfg 2 (Detail "Wallet" 2 124 wallet_notes));
    [reflexivity | reflexivity | discriminate | vm_compute; reflexivity].
Defined.

Lemma primary_tables_known_to_fallback_witness :
  exists l',
    outcome (estimate_table_sizes_fallback two_decimals demo_schema stat_conn)
    = inr l'
    /\ (("Audit", 8192) : string * Z).1 ∈ name <$> l'.
Proof.
  apply (primary_tables_known_to_fallback two_decimals demo_schema stat_conn
           [("Audit", 8192); ("Wallet", 4096)] ("Audit", 8192)).
  - vm_compute. reflexivity.
  - apply list_elem_of_here.
Defined.
